(** * Verification of the OAuth callback validation core of [server.js]

    The server is a small Express application with two routes,
    [/install] and [/auth/callback].  This development embeds the
    validation logic of [server.js] (shop syntax check, state registry,
    HMAC canonicalisation and comparison, and the ordering of the gates
    in the callback handler) and proves the properties stated about it.

    Conventions of the embedding:
    - a JavaScript string is the list of its UTF-16 code units, each a [Z];
    - a query object is the list of its own properties, in the order
      [Object.keys] enumerates them;
    - a query value is a string or an array of strings, which is what the
      query parser delivers for [?k=v] and [?k=v1&k=v2];
    - effects (the [stateStore] map, the console, calls into [crypto]) are
      threaded through a small state-and-exception monad. *)

From Stdlib Require Import ZArith Lia String Ascii.
From stdpp Require Import base option list sorting gmap.

Local Open Scope Z_scope.

(** ** JavaScript strings *)

Module JS.

(** A string is its sequence of UTF-16 code units. *)
Definition jsstring : Type := list Z.

(** An ASCII literal as a JavaScript string. *)
Definition lit (s : string) : jsstring :=
  map (fun c => Z.of_nat (nat_of_ascii c)) (list_ascii_of_string s).

#[global] Arguments lit : simpl never.

(** Exceptions the modelled library calls can raise. *)
Inductive exn : Type :=
  | URIError
  | TypeError
  | RangeError.

(** Completion of a computation: a value or a thrown exception. *)
Inductive res (A : Type) : Type :=
  | Ok (a : A)
  | Throw (e : exn).
Arguments Ok {A} a.
Arguments Throw {A} e.

Definition in_range (lo hi u : Z) : bool := (lo <=? u) && (u <=? hi).

Definition is_high_surrogate (u : Z) : bool := in_range 0xD800 0xDBFF u.
Definition is_low_surrogate (u : Z) : bool := in_range 0xDC00 0xDFFF u.

(** Code point of a surrogate pair. *)
Definition pair_code_point (hi lo : Z) : Z :=
  0x10000 + Z.shiftl (hi - 0xD800) 10 + (lo - 0xDC00).

(** UTF-8 bytes of one code point. *)
Definition utf8_of_code_point (cp : Z) : list Z :=
  if cp <? 0x80 then [cp]
  else if cp <? 0x800 then
    [Z.lor 0xC0 (Z.shiftr cp 6); Z.lor 0x80 (Z.land cp 0x3F)]
  else if cp <? 0x10000 then
    [Z.lor 0xE0 (Z.shiftr cp 12);
     Z.lor 0x80 (Z.land (Z.shiftr cp 6) 0x3F);
     Z.lor 0x80 (Z.land cp 0x3F)]
  else
    [Z.lor 0xF0 (Z.shiftr cp 18);
     Z.lor 0x80 (Z.land (Z.shiftr cp 12) 0x3F);
     Z.lor 0x80 (Z.land (Z.shiftr cp 6) 0x3F);
     Z.lor 0x80 (Z.land cp 0x3F)].

(** U+FFFD, which the UTF-8 encoder substitutes for a lone surrogate. *)
Definition replacement_bytes : list Z := [0xEF; 0xBF; 0xBD].

(** [Buffer.from(s, 'utf-8')] on a string. *)
Fixpoint utf8_encode (s : jsstring) : list Z :=
  match s with
  | [] => []
  | u :: rest =>
      if is_high_surrogate u then
        match rest with
        | v :: rest' =>
            if is_low_surrogate v
            then utf8_of_code_point (pair_code_point u v) ++ utf8_encode rest'
            else replacement_bytes ++ utf8_encode rest
        | [] => replacement_bytes
        end
      else if is_low_surrogate u then replacement_bytes ++ utf8_encode rest
      else utf8_of_code_point u ++ utf8_encode rest
  end.

(** Upper-case hexadecimal digit of a nibble. *)
Definition hex_digit_upper (n : Z) : Z :=
  if n <? 10 then 48 + n else 55 + n.

(** Lower-case hexadecimal digit of a nibble. *)
Definition hex_digit_lower (n : Z) : Z :=
  if n <? 10 then 48 + n else 87 + n.

(** [%XX] escape of one byte. *)
Definition percent_byte (b : Z) : jsstring :=
  [37; hex_digit_upper (Z.shiftr b 4); hex_digit_upper (Z.land b 0xF)].

(** Characters [encodeURIComponent] leaves alone:
    [A-Z a-z 0-9 - _ . ! ~ * ' ( )]. *)
Definition uri_unreserved (u : Z) : bool :=
  in_range 65 90 u || in_range 97 122 u || in_range 48 57 u
  || bool_decide (u ∈ [45; 95; 46; 33; 126; 42; 39; 40; 41]).

(** [encodeURIComponent(s)]; a lone surrogate raises [URIError]. *)
Fixpoint encodeURIComponent (s : jsstring) : res jsstring :=
  match s with
  | [] => Ok []
  | u :: rest =>
      let escape (cp : Z) (k : res jsstring) : res jsstring :=
        match k with
        | Ok t => Ok (concat (map percent_byte (utf8_of_code_point cp)) ++ t)
        | Throw e => Throw e
        end in
      if uri_unreserved u then
        match encodeURIComponent rest with
        | Ok t => Ok (u :: t)
        | Throw e => Throw e
        end
      else if is_low_surrogate u then Throw URIError
      else if is_high_surrogate u then
        match rest with
        | v :: rest' =>
            if is_low_surrogate v
            then escape (pair_code_point u v) (encodeURIComponent rest')
            else Throw URIError
        | [] => Throw URIError
        end
      else escape u (encodeURIComponent rest)
  end.

(** [s.isWellFormed()]: every surrogate is half of a pair. *)
Fixpoint well_formed (s : jsstring) : bool :=
  match s with
  | [] => true
  | u :: rest =>
      if is_high_surrogate u then
        match rest with
        | v :: rest' => is_low_surrogate v && well_formed rest'
        | [] => false
        end
      else negb (is_low_surrogate u) && well_formed rest
  end.

(** [arr.join(sep)] on an array of strings. *)
Fixpoint join (sep : jsstring) (l : list jsstring) : jsstring :=
  match l with
  | [] => []
  | [x] => x
  | x :: rest => x ++ sep ++ join sep rest
  end.

(** The order [Array.prototype.sort] uses without a comparator:
    strings compared code unit by code unit. *)
Fixpoint js_leb (a b : jsstring) : bool :=
  match a, b with
  | [], _ => true
  | _ :: _, [] => false
  | x :: a', y :: b' =>
      if x <? y then true
      else if y <? x then false
      else js_leb a' b'
  end.

Definition js_le (a b : jsstring) : Prop := js_leb a b = true.

#[global] Instance js_le_dec (a b : jsstring) : Decision (js_le a b).
Proof. unfold js_le. apply _. Defined.

(** [keys.sort()] *)
Definition sort (keys : list jsstring) : list jsstring :=
  merge_sort js_le keys.

End JS.

(** ** Regular expressions

    The fragment of JavaScript regular expressions that [server.js] uses:
    character classes, concatenation, alternation and [*], matched
    between [^] and [$] (no flags), that is, against the whole string.
    Matching is by derivatives. *)

Module Regex.
Import JS.

Inductive regex : Type :=
  | Never
  | Eps
  | Class (ranges : list (Z * Z))
  | Cat (r1 r2 : regex)
  | Alt (r1 r2 : regex)
  | Star (r : regex).

(** Membership of a code unit in a class given by inclusive ranges. *)
Definition class_mem (ranges : list (Z * Z)) (u : Z) : bool :=
  existsb (fun rg => in_range (fst rg) (snd rg) u) ranges.

(** A literal string, one single-character class per code unit. *)
Definition Lit (s : jsstring) : regex :=
  foldr (fun c r => Cat (Class [(c, c)]) r) Eps s.

Fixpoint nullable (r : regex) : bool :=
  match r with
  | Never => false
  | Eps => true
  | Class _ => false
  | Cat r1 r2 => nullable r1 && nullable r2
  | Alt r1 r2 => nullable r1 || nullable r2
  | Star _ => true
  end.

Fixpoint deriv (u : Z) (r : regex) : regex :=
  match r with
  | Never => Never
  | Eps => Never
  | Class rs => if class_mem rs u then Eps else Never
  | Cat r1 r2 =>
      if nullable r1
      then Alt (Cat (deriv u r1) r2) (deriv u r2)
      else Cat (deriv u r1) r2
  | Alt r1 r2 => Alt (deriv u r1) (deriv u r2)
  | Star r1 => Cat (deriv u r1) (Star r1)
  end.

(** [/^r$/.test(s)] *)
Fixpoint test_anchored (r : regex) (s : jsstring) : bool :=
  match s with
  | [] => nullable r
  | u :: s' => test_anchored (deriv u r) s'
  end.

(** The language of a regular expression. *)
Inductive lang : regex -> jsstring -> Prop :=
  | lang_eps : lang Eps []
  | lang_class rs u : class_mem rs u = true -> lang (Class rs) [u]
  | lang_cat r1 r2 s1 s2 : lang r1 s1 -> lang r2 s2 -> lang (Cat r1 r2) (s1 ++ s2)
  | lang_alt_l r1 r2 s : lang r1 s -> lang (Alt r1 r2) s
  | lang_alt_r r1 r2 s : lang r2 s -> lang (Alt r1 r2) s
  | lang_star_nil r : lang (Star r) []
  | lang_star_cons r u s1 s2 :
      lang r (u :: s1) -> lang (Star r) s2 -> lang (Star r) (u :: s1 ++ s2).

End Regex.

(** ** The server *)

Module Server.
Import JS Regex.

(** *** Query objects *)

(** A value of [req.query]: a string, or an array of strings when the
    parameter is repeated. *)
Inductive qvalue : Type :=
  | QStr (s : jsstring)
  | QArr (elems : list jsstring).

(** The result of a property read; [None] is [undefined]. *)
Definition value : Type := option qvalue.

(** The own properties of a query object, in [Object.keys] order. *)
Definition query : Type := list (jsstring * qvalue).

(** Property read [q[k]]. *)
Fixpoint get (k : jsstring) (q : query) : value :=
  match q with
  | [] => None
  | (k', v) :: q' => if decide (k' = k) then Some v else get k q'
  end.

(** [Object.keys(q)] *)
Definition object_keys (q : query) : list jsstring := map fst q.

(** [Array.isArray(v)] *)
Definition is_array (v : value) : bool :=
  match v with
  | Some (QArr _) => true
  | _ => false
  end.

(** [v.join(sep)] on a value that is an array. *)
Definition array_join (sep : jsstring) (v : value) : jsstring :=
  match v with
  | Some (QArr elems) => join sep elems
  | _ => []
  end.

(** Truthiness, as tested by [!v]: [undefined] and the empty string are
    falsy; non-empty strings and all arrays are truthy. *)
Definition truthy (v : value) : bool :=
  match v with
  | None => false
  | Some (QStr []) => false
  | Some _ => true
  end.

(** String conversion, as applied by template literals, [RegExp.test]
    and [encodeURIComponent]. *)
Definition to_string (v : value) : jsstring :=
  match v with
  | None => lit "undefined"
  | Some (QStr s) => s
  | Some (QArr l) => join (lit ",") l
  end.

(** A query as the parser delivers it: every string in it is well
    formed (percent-escapes are decoded as UTF-8, raw bytes as Latin-1,
    neither of which produces a lone surrogate). *)
Definition value_well_formed (v : qvalue) : Prop :=
  match v with
  | QStr s => well_formed s = true
  | QArr elems => Forall (fun s => well_formed s = true) elems
  end.

Definition query_well_formed (q : query) : Prop :=
  Forall (fun kv => well_formed kv.1 = true /\ value_well_formed kv.2) q.

(** *** Configuration and runtime *)

(** The environment variables read at start-up. *)
Record config : Type := {
  CLIENT_ID : jsstring;
  CLIENT_SECRET : jsstring;
  SCOPES : jsstring;
  REDIRECT_URI : jsstring;
  OFFLINE_TOKEN_EXPIRING : bool
}.

(** What the Node runtime supplies and the source does not define:
    [hmac_sha256_hex key msg] is
    [crypto.createHmac('sha256', key).update(msg, 'utf-8').digest('hex')],
    [to_uint8 s] is the byte [Buffer.from] stores for the array
    element [s], and [new_URL s] is the serialisation of [new URL(s)],
    with the host in the form the URL parser gives it, or [None] when
    the constructor throws its [TypeError]. *)
Class Runtime : Type := {
  hmac_sha256_hex : jsstring -> jsstring -> jsstring;
  to_uint8 : jsstring -> Z;
  new_URL : jsstring -> option jsstring
}.

(** *** State and effects *)

(** The parsed body of the token-exchange response. *)
Record token_json : Type := {
  access_token : option jsstring;
  scope : option jsstring
}.

(** An authorize URL before serialisation: the base and the search
    parameters set on it, in order. *)
Record url : Type := {
  url_base : jsstring;
  url_params : list (jsstring * jsstring)
}.

(** Arguments printed by [console.log] and [console.error]. *)
Inductive console_arg : Type :=
  | AStr (s : jsstring)
  | AQuery (q : query)
  | AVal (v : value)
  | AJson (j : token_json)
  | AUrl (u : url)
  | AErr.

(** Observable actions, recorded in the order they happen. *)
Inductive event : Type :=
  | ConsoleLog (args : list console_arg)
  | ConsoleError (args : list console_arg)
  | CreateHmac (key msg : jsstring)
  | TimingSafeEqual (a b : list Z)
  | RandomBytes (n : nat)
  | Fetch (target : jsstring) (body : list (jsstring * jsstring)).

(** The process state: the [stateStore] map from state token to creation
    time, and the actions performed so far. *)
Record world : Type := {
  stateStore : gmap jsstring Z;
  trace : list event
}.

(** Computations that read and update the world and may throw. *)
Definition M (A : Type) : Type := world -> res A * world.

Definition ret {A} (a : A) : M A := fun w => (Ok a, w).

Definition bind {A B} (m : M A) (k : A -> M B) : M B :=
  fun w =>
    match m w with
    | (Ok a, w') => k a w'
    | (Throw e, w') => (Throw e, w')
    end.

Definition throw {A} (e : exn) : M A := fun w => (Throw e, w).

Definition lift {A} (r : res A) : M A := fun w => (r, w).

(** The world after one more action. *)
Definition logged (e : event) (w : world) : world :=
  {| stateStore := stateStore w; trace := trace w ++ [e] |}.

Definition emit (e : event) : M unit :=
  fun w => (Ok tt, logged e w).

Declare Scope js_scope.
Delimit Scope js_scope with js.
Notation "x <- m ;; k" := (bind m (fun x => k))
  (at level 100, m at next level, right associativity) : js_scope.
Notation "m ;; k" := (bind m (fun _ => k))
  (at level 100, right associativity) : js_scope.
Local Open Scope js_scope.

Definition console_log (args : list console_arg) : M unit :=
  emit (ConsoleLog args).

Definition console_error (args : list console_arg) : M unit :=
  emit (ConsoleError args).

(** [for (x of l) f(x)] collecting results; the first exception wins. *)
Fixpoint map_res {A B} (f : A -> res B) (l : list A) : res (list B) :=
  match l with
  | [] => Ok []
  | x :: l' =>
      match f x with
      | Throw e => Throw e
      | Ok y =>
          match map_res f l' with
          | Throw e => Throw e
          | Ok ys => Ok (y :: ys)
          end
      end
  end.

(** [stateStore.has(state)]: a [Map] compares keys by identity, so only a
    string can be found among the string keys. *)
Definition store_has (state : value) : M bool :=
  fun w =>
    match state with
    | Some (QStr s) => (Ok (bool_decide (is_Some (stateStore w !! s))), w)
    | _ => (Ok false, w)
    end.

(** [stateStore.delete(state)] *)
Definition store_delete (state : value) : M unit :=
  fun w =>
    match state with
    | Some (QStr s) =>
        (Ok tt, {| stateStore := delete s (stateStore w); trace := trace w |})
    | _ => (Ok tt, w)
    end.

(** [stateStore.set(state, createdAt)] *)
Definition store_set (state : jsstring) (createdAt : Z) : M unit :=
  fun w =>
    (Ok tt, {| stateStore := <[state := createdAt]> (stateStore w);
               trace := trace w |}).

(** *** The source functions *)

(** [const STATE_TTL_MS = 10 * 60 * 1000] *)
Definition STATE_TTL_MS : Z := 10 * 60 * 1000.

(** The body of the [setInterval] callback, run at time [now]: every
    entry older than the TTL is deleted. *)
Definition sweep (now : Z) : M unit :=
  fun w =>
    (Ok tt,
     {| stateStore :=
          filter (fun kv => ~ (now - kv.2 > STATE_TTL_MS)) (stateStore w);
        trace := trace w |}).

Definition alnum : list (Z * Z) := [(97, 122); (65, 90); (48, 57)].
Definition alnum_hyphen : list (Z * Z) := alnum ++ [(45, 45)].

(** The pattern [[a-zA-Z0-9][a-zA-Z0-9\-]*\.myshopify\.com] between
    [^] and [$]. *)
Definition shop_pattern : regex :=
  Cat (Class alnum) (Cat (Star (Class alnum_hyphen)) (Lit (lit ".myshopify.com"))).

Definition isValidShop (shop : value) : bool :=
  test_anchored shop_pattern (to_string shop).

Section WithRuntime.
Context {RT : Runtime}.
Variable cfg : config.

(** [Buffer.from(v, 'utf-8')]: the UTF-8 bytes of a string; for an array,
    one byte per element (the encoding argument is ignored); [undefined]
    is a [TypeError]. *)
Definition Buffer_from (v : value) : res (list Z) :=
  match v with
  | Some (QStr s) => Ok (utf8_encode s)
  | Some (QArr l) => Ok (map to_uint8 l)
  | None => Throw TypeError
  end.

(** The comparison inside [crypto.timingSafeEqual]: the differences of
    all byte pairs are accumulated before the single test. *)
Definition ct_equal (a b : list Z) : bool :=
  foldl Z.lor 0 (zip_with Z.lxor a b) =? 0.

(** [crypto.timingSafeEqual(a, b)], which throws on buffers of different
    lengths. *)
Definition timingSafeEqual (a b : list Z) : M bool :=
  if decide (length a = length b)
  then (emit (TimingSafeEqual a b) ;; ret (ct_equal a b))
  else throw RangeError.

Definition safeCompare (a b : value) : M bool :=
  bufA <- lift (Buffer_from a) ;;
  bufB <- lift (Buffer_from b) ;;
  if negb (bool_decide (length bufA = length bufB)) then ret false
  else timingSafeEqual bufA bufB.

(** [const { hmac: _hmac, signature: _signature, ...rest } = query] *)
Definition rest_of (q : query) : query :=
  filter (fun kv => kv.1 <> lit "hmac" /\ kv.1 <> lit "signature") q.

(** The callback passed to [map] in [buildHmacMessage]. *)
Definition encode_pair (rest : query) (key : jsstring) : res jsstring :=
  let value : value :=
    if is_array (get key rest)
    then Some (QStr (array_join (lit ",") (get key rest)))
    else get key rest in
  match encodeURIComponent key with
  | Throw e => Throw e
  | Ok k =>
      match encodeURIComponent (to_string value) with
      | Throw e => Throw e
      | Ok v => Ok (k ++ lit "=" ++ v)
      end
  end.

Definition buildHmacMessage (q : query) : res jsstring :=
  let rest := rest_of q in
  match map_res (encode_pair rest) (sort (object_keys rest)) with
  | Throw e => Throw e
  | Ok parts => Ok (join (lit "&") parts)
  end.

(** [crypto.createHmac('sha256', key).update(message, 'utf-8').digest('hex')] *)
Definition createHmac_hex (key message : jsstring) : M jsstring :=
  emit (CreateHmac key message) ;; ret (hmac_sha256_hex key message).

Definition verifyHmac (q : query) : M bool :=
  let hmac := get (lit "hmac") q in
  if negb (truthy hmac) then
    console_error [AStr (lit "No hmac in query:"); AQuery q] ;;
    ret false
  else
    message <- lift (buildHmacMessage q) ;;
    calculated <- createHmac_hex (CLIENT_SECRET cfg) message ;;
    same <- safeCompare (Some (QStr calculated)) hmac ;;
    if negb same then
      console_error [AStr (lit "HMAC mismatch")] ;;
      console_error [AStr (lit "Query params:"); AQuery q] ;;
      console_error [AStr (lit "Message string:"); AStr message] ;;
      console_error [AStr (lit "Calculated HMAC:"); AStr calculated] ;;
      console_error [AStr (lit "Shopify HMAC:"); AVal hmac] ;;
      ret false
    else ret true.

(** *** The route handlers *)

(** What a handler answers: [res.status(n).send(body)] or
    [res.redirect(url)]. *)
Inductive response : Type :=
  | Send (status : Z) (body : jsstring)
  | Redirect (target : url).

(** [buf.toString('hex')] *)
Definition hex_of_bytes (bytes : list Z) : jsstring :=
  concat (map (fun b => [hex_digit_lower (Z.shiftr b 4);
                         hex_digit_lower (Z.land b 0xF)]) bytes).

(** [crypto.randomBytes(n)], with the bytes the generator delivers. *)
Definition randomBytes (n : nat) (entropy : list Z) : M (list Z) :=
  emit (RandomBytes n) ;; ret (take n entropy).

(** [new URL(input)]: the parsed URL, or a [TypeError] when the parser
    refuses the input. *)
Definition construct_URL (input : jsstring) : M jsstring :=
  match new_URL input with
  | Some href => ret href
  | None => throw TypeError
  end.

(** The handler of [GET /install]; [entropy] is what the random source
    yields and [now] is [Date.now()].  The state is recorded before the
    URL is built, so a shop the URL parser refuses leaves its token in
    the registry. *)
Definition install (q : query) (entropy : list Z) (now : Z) : M response :=
  let shop := get (lit "shop") q in
  if negb (truthy shop) || negb (isValidShop shop) then
    ret (Send 400 (lit "Invalid ?shop parameter"))
  else
    bytes <- randomBytes 16 entropy ;;
    let state := hex_of_bytes bytes in
    store_set state now ;;
    base <- construct_URL
              (lit "https://" ++ to_string shop ++ lit "/admin/oauth/authorize") ;;
    let redirectUrl :=
      {| url_base := base;
         url_params := [(lit "client_id", CLIENT_ID cfg);
                        (lit "scope", SCOPES cfg);
                        (lit "redirect_uri", REDIRECT_URI cfg);
                        (lit "state", state)] |} in
    console_log [AStr (lit "Redirecting to Shopify authorize URL:");
                 AUrl redirectUrl] ;;
    ret (Redirect redirectUrl).

(** What the awaited token exchange turns out to be. *)
Inductive fetch_outcome : Type :=
  | FetchRejected
  | FetchNotOk (text : jsstring)
  | FetchBadJson
  | FetchJson (json : token_json).

(** Truthiness of an optional string field. *)
Definition field_truthy (f : option jsstring) : bool :=
  match f with
  | None | Some [] => false
  | Some _ => true
  end.

Definition field_string (f : option jsstring) : jsstring :=
  match f with
  | None => lit "undefined"
  | Some s => s
  end.

(** The [try] block of the callback handler. *)
Definition exchange (shop code : value) (outcome : fetch_outcome) : M response :=
  emit (Fetch (lit "https://" ++ to_string shop ++ lit "/admin/oauth/access_token")
          ([(lit "client_id", CLIENT_ID cfg);
            (lit "client_secret", CLIENT_SECRET cfg);
            (lit "code", to_string code)]
           ++ (if OFFLINE_TOKEN_EXPIRING cfg then [(lit "expiring", lit "1")] else []))) ;;
  match outcome with
  | FetchRejected | FetchBadJson =>
      console_error [AStr (lit "Error in callback handler:"); AErr] ;;
      ret (Send 500 (lit "Internal error"))
  | FetchNotOk text =>
      console_error [AStr (lit "Token exchange failed:"); AStr text] ;;
      ret (Send 500 (lit "Token exchange failed"))
  | FetchJson json =>
      if negb (field_truthy (access_token json)) then
        console_error [AStr (lit "No access_token in response:"); AJson json] ;;
        ret (Send 500 (lit "No access_token in response"))
      else
        console_log [AStr (lit "=====================================")] ;;
        console_log [AStr (lit "Shop: " ++ to_string shop)] ;;
        console_log [AStr (lit "Access token: " ++ field_string (access_token json))] ;;
        console_log [AStr (lit "Scopes: " ++ field_string (scope json))] ;;
        console_log [AStr (lit "=====================================")] ;;
        ret (Send 200
               (lit "<h1>Success</h1>" ++ [10]
                ++ lit "       <p>Token generated for <strong>" ++ to_string shop
                ++ lit "</strong>.</p>" ++ [10]
                ++ lit "       <p>Check your terminal logs for the access token.</p>"))
  end.

(** The third gate of the callback handler, [state && stateStore.has(state)]. *)
Definition state_check (state : value) : M bool :=
  if negb (truthy state) then ret false else store_has state.

(** The handler of [GET /auth/callback]. *)
Definition callback (q : query) (outcome : fetch_outcome) : M response :=
  console_log [AStr (lit "Received callback with query:"); AQuery q] ;;
  let shop := get (lit "shop") q in
  let code := get (lit "code") q in
  let state := get (lit "state") q in
  if negb (truthy shop) || negb (isValidShop shop) then
    ret (Send 400 (lit "Invalid shop parameter"))
  else if negb (truthy code) then
    ret (Send 400 (lit "Missing code parameter"))
  else
    known <- state_check state ;;
    if negb known then
      console_error [AStr (lit "Invalid or missing state:"); AVal state] ;;
      ret (Send 400 (lit "Invalid or missing state"))
    else
      authentic <- verifyHmac q ;;
      if negb authentic then
        ret (Send 400 (lit "HMAC validation failed"))
      else
        store_delete state ;;
        exchange shop code outcome.

(** *** The process over time

    The event loop runs one handler or one timer callback at a time.  A
    timeline lists what runs, with the clock reading at that moment. *)

Inductive action : Type :=
  | DoInstall (q : query) (entropy : list Z)
  | DoCallback (q : query) (outcome : fetch_outcome)
  | DoSweep.

Definition act (now : Z) (a : action) : M (option response) :=
  match a with
  | DoInstall q entropy => r <- install q entropy now ;; ret (Some r)
  | DoCallback q outcome => r <- callback q outcome ;; ret (Some r)
  | DoSweep => sweep now ;; ret None
  end.

Fixpoint run (timeline : list (Z * action)) : M (list (option response)) :=
  match timeline with
  | [] => ret []
  | (now, a) :: later =>
      r <- act now a ;;
      rs <- run later ;;
      ret (r :: rs)
  end.

End WithRuntime.

(** The line [console.error('No hmac in query:', query)] as an event. *)
Definition no_hmac_line (q : query) : event :=
  ConsoleError [AStr (lit "No hmac in query:"); AQuery q].

(** The line [console.log('Received callback with query:', req.query)]. *)
Definition received_line (q : query) : event :=
  ConsoleLog [AStr (lit "Received callback with query:"); AQuery q].

(** The line [console.error('Invalid or missing state:', state)]. *)
Definition bad_state_line (state : value) : event :=
  ConsoleError [AStr (lit "Invalid or missing state:"); AVal state].

End Server.

(** ** The specification's wording

    The shape of a shop identifier, and the signed message in five
    steps: drop the signature fields, flatten array values with a comma,
    sort by key, percent-encode keys and values, join the pairs with an
    ampersand. *)

Module Spec.
Import JS Server.

(** An alphanumeric character: a digit or an ASCII letter. *)
Definition alphanumeric (u : Z) : Prop :=
  48 <= u <= 57 \/ 65 <= u <= 90 \/ 97 <= u <= 122.

Definition hyphen : Z := 45.

(** The shape of a shop identifier: an alphanumeric character, any number
    of alphanumeric or hyphen characters, then the fixed domain suffix. *)
Definition shop_shaped (s : jsstring) : Prop :=
  exists c mid,
    s = c :: mid ++ lit ".myshopify.com"
    /\ alphanumeric c
    /\ Forall (fun u => alphanumeric u \/ u = hyphen) mid.

Definition is_signature_field (k : jsstring) : bool :=
  bool_decide (k = lit "hmac") || bool_decide (k = lit "signature").

Definition remove_signature_fields (q : query) : query :=
  filter (fun kv => is_signature_field kv.1 = false) q.

Definition flatten (v : qvalue) : jsstring :=
  match v with
  | QStr s => s
  | QArr elems => join (lit ",") elems
  end.

Definition flatten_values (q : query) : list (jsstring * jsstring) :=
  map (fun kv => (kv.1, flatten kv.2)) q.

Definition key_le (a b : jsstring * jsstring) : Prop := js_le a.1 b.1.

#[global] Instance key_le_dec (a b : jsstring * jsstring) : Decision (key_le a b).
Proof. unfold key_le. apply _. Defined.

Definition sort_by_key (l : list (jsstring * jsstring)) : list (jsstring * jsstring) :=
  merge_sort key_le l.

Definition percentEncode : jsstring -> res jsstring := encodeURIComponent.

Definition pair_string (kv : jsstring * jsstring) : res jsstring :=
  match percentEncode kv.1 with
  | Throw e => Throw e
  | Ok k =>
      match percentEncode kv.2 with
      | Throw e => Throw e
      | Ok v => Ok (k ++ lit "=" ++ v)
      end
  end.

Definition signed_message (q : query) : res jsstring :=
  match map_res pair_string
          (sort_by_key (flatten_values (remove_signature_fields q))) with
  | Throw e => Throw e
  | Ok parts => Ok (join (lit "&") parts)
  end.

End Spec.

(** ** Concrete instances used to exercise the theorems *)

Module Demo.
Import JS Server.

(** A stand-in for the keyed hash: the hexadecimal rendering of key and
    message.  Nothing below depends on cryptographic strength.  The
    stand-in URL parser accepts every input as it is, except a host
    starting with [xn--a.], which it refuses. *)
Definition demo_runtime : Runtime := {|
  hmac_sha256_hex := fun key msg => hex_of_bytes (utf8_encode (key ++ msg));
  to_uint8 := fun _ => 0;
  new_URL := fun input =>
    if bool_decide (take 15 input = lit "https://xn--a.m") then None
    else Some input
|}.

Definition demo_config : config := {|
  CLIENT_ID := lit "id";
  CLIENT_SECRET := lit "k";
  SCOPES := lit "read_products";
  REDIRECT_URI := lit "https://example.test/auth/callback";
  OFFLINE_TOKEN_EXPIRING := false
|}.

Definition demo_token : jsstring := lit "00112233445566778899aabbccddeeff".

(** The parameters of a callback, without the signature. *)
Definition demo_params (shop : string) : query :=
  [(lit "shop", QStr (lit shop));
   (lit "code", QStr (lit "c0de"));
   (lit "state", QStr demo_token)].

(** The signature the stand-in hash assigns to a query. *)
Definition demo_sign (q : query) : jsstring :=
  match buildHmacMessage q with
  | Ok message => @hmac_sha256_hex demo_runtime (CLIENT_SECRET demo_config) message
  | Throw _ => []
  end.

(** A correctly signed callback for [shop]. *)
Definition demo_callback (shop : string) : query :=
  demo_params shop ++ [(lit "hmac", QStr (demo_sign (demo_params shop)))].

(** A world whose registry holds [demo_token], created at time [0]. *)
Definition demo_world : world := {|
  stateStore := {[ demo_token := 0 ]};
  trace := []
|}.

Definition demo_json : token_json := {|
  access_token := Some (lit "shpat_x");
  scope := Some (lit "read_products")
|}.

(** The sixteen random bytes whose hexadecimal rendering is [demo_token]. *)
Definition demo_entropy : list Z :=
  [0x00; 0x11; 0x22; 0x33; 0x44; 0x55; 0x66; 0x77;
   0x88; 0x99; 0xaa; 0xbb; 0xcc; 0xdd; 0xee; 0xff].

Definition empty_world : world := {| stateStore := ∅; trace := [] |}.

(** The page the callback answers on success. *)
Definition success_page (shop : string) : jsstring :=
  lit "<h1>Success</h1>" ++ [10]
  ++ lit "       <p>Token generated for <strong>" ++ lit shop
  ++ lit "</strong>.</p>" ++ [10]
  ++ lit "       <p>Check your terminal logs for the access token.</p>".

(** An install at [t = 1000] ms, the ten sweeps of the following ten
    minutes, and the callback arriving once the token is older than
    [STATE_TTL_MS] but before the eleventh sweep. *)
Definition late_callback_timeline : list (Z * action) :=
  [(1000, DoInstall [(lit "shop", QStr (lit "abc-1.myshopify.com"))] demo_entropy)]
  ++ map (fun k => (60000 * k, DoSweep)) [1; 2; 3; 4; 5; 6; 7; 8; 9; 10]
  ++ [(601500, DoCallback (demo_callback "abc-1.myshopify.com") (FetchJson demo_json))].

End Demo.

(** ** Start-up

    The top of [server.js]: the settings are read from the environment
    and the process refuses to start on an incomplete or inconsistent
    configuration. *)

Module Startup.
Import JS Server.

(** White space and line terminators, as [String.prototype.trim]
    understands them. *)
Definition is_whitespace (u : Z) : bool :=
  bool_decide (u ∈ [0x09; 0x0A; 0x0B; 0x0C; 0x0D; 0x20; 0xA0; 0x1680;
                    0x2028; 0x2029; 0x202F; 0x205F; 0x3000; 0xFEFF])
  || in_range 0x2000 0x200A u.

Fixpoint drop_while (p : Z -> bool) (s : jsstring) : jsstring :=
  match s with
  | [] => []
  | u :: rest => if p u then drop_while p rest else s
  end.

(** [s.trim()] *)
Definition trim (s : jsstring) : jsstring :=
  reverse (drop_while is_whitespace (reverse (drop_while is_whitespace s))).

(** [process.env]: variable names to strings; an unset variable reads
    as [undefined]. *)
Definition env : Type := gmap jsstring jsstring.

(** Truthiness of a string that may be [undefined]. *)
Definition set_and_nonempty (v : option jsstring) : bool :=
  match v with
  | None | Some [] => false
  | Some _ => true
  end.

(** [process.env.PORT || 3001]: the variable as a string, or the number. *)
Inductive port : Type :=
  | PortFromEnv (p : jsstring)
  | PortNumber (n : Z).

(** How the module body ends: the server listens, or an [Error] is
    thrown with the given message. *)
Inductive started : Type :=
  | Listening (cfg : config) (on : port)
  | Crashed (message : jsstring).

Definition missing_message : jsstring := lit "Missing required env vars".

Definition misconfigured_message : jsstring :=
  lit "Misconfigured env: SHOPIFY_CLIENT_SECRET equals SHOPIFY_CLIENT_ID (this will break HMAC validation).".

(** Lines 8 to 24 of [server.js]. *)
Definition startup (e : env) : started :=
  let CLIENT_ID := e !! lit "SHOPIFY_CLIENT_ID" in
  let CLIENT_SECRET := trim <$> (e !! lit "SHOPIFY_CLIENT_SECRET") in
  let SCOPES := e !! lit "SHOPIFY_SCOPES" in
  let REDIRECT_URI := e !! lit "SHOPIFY_REDIRECT_URI" in
  let OFFLINE_TOKEN_EXPIRING :=
    bool_decide (e !! lit "SHOPIFY_OFFLINE_TOKEN_EXPIRING" = Some (lit "1")) in
  let PORT :=
    if set_and_nonempty (e !! lit "PORT")
    then PortFromEnv (default [] (e !! lit "PORT"))
    else PortNumber 3001 in
  if negb (set_and_nonempty CLIENT_ID) || negb (set_and_nonempty CLIENT_SECRET)
     || negb (set_and_nonempty SCOPES) || negb (set_and_nonempty REDIRECT_URI)
  then Crashed missing_message
  else if bool_decide (CLIENT_SECRET = CLIENT_ID)
  then Crashed misconfigured_message
  else Listening
         {| Server.CLIENT_ID := default [] CLIENT_ID;
            Server.CLIENT_SECRET := default [] CLIENT_SECRET;
            Server.SCOPES := default [] SCOPES;
            Server.REDIRECT_URI := default [] REDIRECT_URI;
            Server.OFFLINE_TOKEN_EXPIRING := OFFLINE_TOKEN_EXPIRING |}
         PORT.

End Startup.

(** ** Vocabulary for further properties *)

Module Props.
Import JS Server.

(** A string of ASCII characters only. *)
Definition ascii (s : jsstring) : Prop := Forall (fun u => 0 <= u < 128) s.

(** Every element is a UTF-16 code unit. *)
Definition code_units (s : jsstring) : Prop := Forall (fun u => 0 <= u < 65536) s.

Definition value_code_units (v : qvalue) : Prop :=
  match v with
  | QStr s => code_units s
  | QArr elems => Forall code_units elems
  end.

Definition query_code_units (q : query) : Prop :=
  Forall (fun kv => code_units kv.1 /\ value_code_units kv.2) q.

(** Every element is a byte. *)
Definition bytes (l : list Z) : Prop := Forall (fun b => 0 <= b < 256) l.


(** A character [encodeURIComponent] can emit: an unreserved one or the
    percent sign. *)
Definition uri_safe (u : Z) : Prop := uri_unreserved u = true \/ u = 37.

(** Number of occurrences of a code unit in a string. *)
Definition occurrences (c : Z) (s : jsstring) : nat :=
  length (filter (fun u => u = c) s).

(** The query with every array value replaced by the string its
    elements join to. *)
Definition flatten_arrays (q : query) : query :=
  map (fun kv => (kv.1, QStr (Spec.flatten kv.2))) q.

(** The events a computation added to the trace. *)
Definition is_fetch (e : event) : bool :=
  match e with
  | Fetch _ _ => true
  | _ => false
  end.

Definition is_crypto (e : event) : bool :=
  match e with
  | CreateHmac _ _ | TimingSafeEqual _ _ | RandomBytes _ => true
  | _ => false
  end.

End Props.

(** * Theorems *)

Import JS Regex Server.
Local Open Scope js_scope.

(** ** Facts about the string order *)

Lemma js_leb_refl a : js_leb a a = true.
Proof. induction a as [|x a IH]; simpl; [done|]. by rewrite Z.ltb_irrefl. Qed.

Lemma js_leb_total a b : js_leb a b = true \/ js_leb b a = true.
Proof.
  revert b. induction a as [|x a IH]; intros [|y b]; simpl; auto.
  destruct (Z.ltb_spec x y), (Z.ltb_spec y x); auto; lia.
Qed.

Lemma js_leb_antisym a b : js_leb a b = true -> js_leb b a = true -> a = b.
Proof.
  revert b. induction a as [|x a IH]; intros [|y b]; simpl; try done.
  destruct (Z.ltb_spec x y), (Z.ltb_spec y x); try done; try lia.
  intros H1 H2. f_equal; [lia | by apply IH].
Qed.

Lemma js_leb_trans a b c :
  js_leb a b = true -> js_leb b c = true -> js_leb a c = true.
Proof.
  revert b c. induction a as [|x a IH]; intros [|y b] [|z c]; simpl; try done.
  destruct (Z.ltb_spec x y), (Z.ltb_spec y z), (Z.ltb_spec x z),
    (Z.ltb_spec y x), (Z.ltb_spec z y), (Z.ltb_spec z x);
    try done; try lia.
  apply IH.
Qed.

#[local] Instance js_le_total : Total js_le.
Proof. intros a b. apply js_leb_total. Qed.
#[local] Instance js_le_trans : Transitive js_le.
Proof. intros a b c. apply js_leb_trans. Qed.
#[local] Instance js_le_antisym : AntiSymm (=) js_le.
Proof. intros a b. apply js_leb_antisym. Qed.

#[local] Instance key_le_total : Total Spec.key_le.
Proof. intros a b. apply js_leb_total. Qed.

(** ** Facts about the byte comparison *)

Lemma foldl_lor_zero acc l :
  foldl Z.lor acc l = 0 <-> acc = 0 /\ Forall (fun d => d = 0) l.
Proof.
  revert acc. induction l as [|d l IH]; intros acc; simpl.
  - split; [intros ->; by split | by intros [-> _]].
  - rewrite IH, Z.lor_eq_0_iff, Forall_cons. tauto.
Qed.

Lemma ct_equal_spec a b :
  length a = length b -> (ct_equal a b = true <-> a = b).
Proof.
  unfold ct_equal. rewrite Z.eqb_eq, foldl_lor_zero.
  revert b. induction a as [|x a IH]; intros [|y b] Hlen; simpl in *; try done.
  rewrite Forall_cons, Z.lxor_eq_0_iff.
  specialize (IH b ltac:(lia)). split.
  - intros [_ [-> Hf]]. f_equal. apply IH. by split.
  - intros [= -> ->]. split; [done|]. split; [done|]. apply IH. done.
Qed.

(** ** Correctness of matching by derivatives *)

Lemma lang_cat_inv r1 r2 s :
  lang (Cat r1 r2) s <-> exists s1 s2, s = s1 ++ s2 /\ lang r1 s1 /\ lang r2 s2.
Proof.
  split.
  - inversion 1; subst. eauto.
  - intros (s1 & s2 & -> & H1 & H2). by constructor.
Qed.

Lemma lang_alt_inv r1 r2 s : lang (Alt r1 r2) s <-> lang r1 s \/ lang r2 s.
Proof.
  split.
  - inversion 1; subst; auto.
  - intros [H|H]; [by apply lang_alt_l | by apply lang_alt_r].
Qed.

Lemma lang_class_inv rs s :
  lang (Class rs) s <-> exists u, s = [u] /\ class_mem rs u = true.
Proof.
  split.
  - inversion 1; subst. eauto.
  - intros (u & -> & H). by constructor.
Qed.

Lemma lang_star_cons_inv r u s :
  lang (Star r) (u :: s) <->
  exists s1 s2, s = s1 ++ s2 /\ lang r (u :: s1) /\ lang (Star r) s2.
Proof.
  split.
  - inversion 1; subst. eauto.
  - intros (s1 & s2 & -> & H1 & H2). by constructor.
Qed.

Lemma nullable_lang r : nullable r = true <-> lang r [].
Proof.
  induction r as [| |rs|r1 IH1 r2 IH2|r1 IH1 r2 IH2|r IH]; simpl.
  - split; [done | inversion 1].
  - split; [constructor | done].
  - split; [done | inversion 1].
  - rewrite andb_true_iff, IH1, IH2, lang_cat_inv. split.
    + intros [H1 H2]. by exists [], [].
    + intros (s1 & s2 & Hs & H1 & H2).
      symmetry in Hs. apply app_eq_nil in Hs as [-> ->]. done.
  - by rewrite orb_true_iff, IH1, IH2, lang_alt_inv.
  - split; [constructor | done].
Qed.

Lemma deriv_lang r u s : lang (deriv u r) s <-> lang r (u :: s).
Proof.
  revert s.
  induction r as [| |rs|r1 IH1 r2 IH2|r1 IH1 r2 IH2|r IH]; intros s; simpl.
  - split; inversion 1.
  - split; inversion 1.
  - rewrite lang_class_inv. destruct (class_mem rs u) eqn:Hm.
    + split.
      * inversion 1; subst. by eexists.
      * intros (u' & [= -> ->] & _). constructor.
    + split; [inversion 1|]. intros (u' & [= -> ->] & ?). congruence.
  - assert (Hcat : forall t, lang (Cat (deriv u r1) r2) t <->
               exists s1 s2, t = s1 ++ s2 /\ lang r1 (u :: s1) /\ lang r2 s2).
    { intros t. rewrite lang_cat_inv. by setoid_rewrite IH1. }
    rewrite (lang_cat_inv r1 r2). destruct (nullable r1) eqn:Hn.
    + rewrite lang_alt_inv, Hcat, IH2. split.
      * intros [(s1 & s2 & -> & H1 & H2) | H2].
        -- by exists (u :: s1), s2.
        -- apply nullable_lang in Hn. by exists [], (u :: s).
      * intros (s1 & s2 & Hs & H1 & H2). destruct s1 as [|x s1]; simpl in Hs.
        -- subst s2. by right.
        -- injection Hs as <- ->. left. eauto.
    + rewrite Hcat. split.
      * intros (s1 & s2 & -> & H1 & H2). by exists (u :: s1), s2.
      * intros (s1 & s2 & Hs & H1 & H2). destruct s1 as [|x s1]; simpl in Hs.
        -- apply nullable_lang in H1. congruence.
        -- injection Hs as <- ->. eauto.
  - by rewrite !lang_alt_inv, IH1, IH2.
  - rewrite lang_star_cons_inv, lang_cat_inv. by setoid_rewrite IH.
Qed.

Lemma test_anchored_lang r s : test_anchored r s = true <-> lang r s.
Proof.
  revert r. induction s as [|u s IH]; intros r; simpl.
  - apply nullable_lang.
  - by rewrite IH, deriv_lang.
Qed.

(** ** The shop identifier *)

Lemma class_single c u : class_mem [(c, c)] u = true <-> u = c.
Proof.
  unfold class_mem, in_range. simpl.
  rewrite orb_true_iff, andb_true_iff, !Z.leb_le. intuition (try done; lia).
Qed.

Lemma lang_lit t s : lang (Lit t) s <-> s = t.
Proof.
  revert s. induction t as [|c t IH]; intros s; simpl.
  - split; [by inversion 1 | intros ->; constructor].
  - rewrite lang_cat_inv. setoid_rewrite lang_class_inv. setoid_rewrite IH.
    split.
    + intros (s1 & s2 & -> & (u & -> & Hu) & ->).
      apply class_single in Hu as ->. done.
    + intros ->. exists [c], t. split; [done|]. split; [|done].
      exists c. split; [done|]. by apply class_single.
Qed.

Lemma lang_star_class rs s :
  lang (Star (Class rs)) s <-> Forall (fun u => class_mem rs u = true) s.
Proof.
  induction s as [|u s IH].
  - split; constructor.
  - rewrite lang_star_cons_inv, Forall_cons, <- IH.
    setoid_rewrite lang_class_inv. split.
    + intros (s1 & s2 & -> & (u' & [= -> ->] & Hu) & Hs). done.
    + intros [Hu Hs]. exists [], s. eauto.
Qed.

Lemma class_alnum u : class_mem alnum u = true <-> Spec.alphanumeric u.
Proof.
  unfold Spec.alphanumeric, class_mem, alnum, in_range. simpl.
  rewrite !orb_true_iff, !andb_true_iff, !Z.leb_le. intuition lia.
Qed.

Lemma class_alnum_hyphen u :
  class_mem alnum_hyphen u = true <-> Spec.alphanumeric u \/ u = Spec.hyphen.
Proof.
  unfold Spec.alphanumeric, Spec.hyphen, class_mem, alnum_hyphen, alnum, in_range.
  simpl. rewrite !orb_true_iff, !andb_true_iff, !Z.leb_le. intuition lia.
Qed.

(** C7.  [isValidShop] accepts exactly the strings made of an
    alphanumeric character, then any number of alphanumeric or hyphen
    characters, then the suffix [.myshopify.com]; it accepts
    [abc-1.myshopify.com] and rejects [-abc.myshopify.com],
    [abc.notshopify.com] and the empty string. *)
Theorem isValidShop_exact :
  (forall s, isValidShop (Some (QStr s)) = true <-> Spec.shop_shaped s)
  /\ isValidShop (Some (QStr (lit "abc-1.myshopify.com"))) = true
  /\ isValidShop (Some (QStr (lit "-abc.myshopify.com"))) = false
  /\ isValidShop (Some (QStr (lit "abc.notshopify.com"))) = false
  /\ isValidShop (Some (QStr (lit ""))) = false.
Proof.
  split; [|by vm_compute].
  intros s. unfold isValidShop, shop_pattern, Spec.shop_shaped. simpl to_string.
  rewrite test_anchored_lang, lang_cat_inv.
  setoid_rewrite lang_cat_inv. setoid_rewrite lang_class_inv.
  setoid_rewrite lang_star_class. setoid_rewrite lang_lit.
  setoid_rewrite class_alnum. split.
  - intros (s1 & s2 & -> & (c & -> & Hc) & (mid & suf & -> & Hmid & ->)).
    exists c, mid. split; [done|]. split; [done|].
    eapply Forall_impl; [exact Hmid|]. intros u. apply class_alnum_hyphen.
  - intros (c & mid & -> & Hc & Hmid).
    exists [c], (mid ++ lit ".myshopify.com"). split; [done|].
    split; [by exists c|].
    exists mid, (lit ".myshopify.com"). split; [done|]. split; [|done].
    eapply Forall_impl; [exact Hmid|]. intros u. apply class_alnum_hyphen.
Qed.

(** ** The signature comparison *)

Lemma safeCompare_eval `{RT : Runtime} a b bufA bufB w :
  Buffer_from a = Ok bufA ->
  Buffer_from b = Ok bufB ->
  safeCompare a b w =
    (Ok (bool_decide (bufA = bufB)),
     if decide (length bufA = length bufB)
     then logged (TimingSafeEqual bufA bufB) w
     else w).
Proof.
  intros Ha Hb. unfold safeCompare, bind, lift. rewrite Ha, Hb.
  unfold timingSafeEqual.
  destruct (decide (length bufA = length bufB)) as [Hlen|Hlen].
  - rewrite bool_decide_eq_true_2 by done. simpl.
    unfold bind, emit, ret, logged. f_equal. f_equal.
    destruct (ct_equal bufA bufB) eqn:Hct.
    + apply ct_equal_spec in Hct; [|done]. by rewrite bool_decide_eq_true_2.
    + rewrite bool_decide_eq_false_2; [done|].
      intros Heq. apply (ct_equal_spec _ _ Hlen) in Heq. congruence.
  - rewrite bool_decide_eq_false_2 by done. simpl. unfold ret.
    rewrite bool_decide_eq_false_2; [done|]. congruence.
Qed.

(** C6.  On two strings, [safeCompare] answers [false] whenever their
    UTF-8 encodings differ in length, and when the lengths agree it
    answers [true] exactly when the two byte sequences are equal. *)
Theorem safeCompare_strings `{RT : Runtime} (a b : jsstring) (w : world) :
  (length (utf8_encode a) <> length (utf8_encode b) ->
     fst (safeCompare (Some (QStr a)) (Some (QStr b)) w) = Ok false)
  /\ (length (utf8_encode a) = length (utf8_encode b) ->
        exists r, fst (safeCompare (Some (QStr a)) (Some (QStr b)) w) = Ok r
                  /\ (r = true <-> utf8_encode a = utf8_encode b)).
Proof.
  rewrite (safeCompare_eval _ _ (utf8_encode a) (utf8_encode b)) by done.
  simpl. split.
  - intros Hlen. rewrite bool_decide_eq_false_2; [done|]. congruence.
  - intros _. eexists. split; [done|]. apply bool_decide_eq_true.
Qed.

Lemma safeCompare_strings_witness :
  length (utf8_encode (lit "a")) <> length (utf8_encode [233])
  /\ fst (safeCompare (RT := Demo.demo_runtime)
            (Some (QStr (lit "a"))) (Some (QStr [233])) Demo.demo_world)
     = Ok false.
Proof.
  assert (Hlen : length (utf8_encode (lit "a")) <> length (utf8_encode [233]))
    by (vm_compute; lia).
  split; [exact Hlen|].
  exact (proj1 (safeCompare_strings (RT := Demo.demo_runtime)
                  (lit "a") [233] Demo.demo_world) Hlen).
Defined.

(** ** The canonical message *)

Lemma rest_of_spec q : rest_of q = Spec.remove_signature_fields q.
Proof.
  unfold rest_of, Spec.remove_signature_fields. apply list_filter_iff.
  intros [k v]. unfold Spec.is_signature_field. simpl.
  rewrite orb_false_iff, !bool_decide_eq_false. done.
Qed.

Lemma get_Some_elem q k v :
  NoDup (object_keys q) -> get k q = Some v <-> (k, v) ∈ q.
Proof.
  unfold object_keys. induction q as [|[k' v'] q IH]; simpl.
  - intros _. split; [done | by intros ?%elem_of_nil].
  - rewrite NoDup_cons. intros [Hk' Hnd]. rewrite elem_of_cons.
    destruct (decide (k' = k)) as [->|Hne].
    + split.
      * intros [= ->]. by left.
      * intros [[= ->]|Hin]; [done|]. destruct Hk'.
        by apply (list_elem_of_fmap_2 fst q (k, v)).
    + rewrite IH by done. split; [by right|].
      intros [[= ? ?]|Hin]; [congruence | done].
Qed.

Lemma get_rest_of q k :
  k <> lit "hmac" -> k <> lit "signature" -> get k (rest_of q) = get k q.
Proof.
  intros Hh Hs. unfold rest_of, query. induction q as [|[k' v'] q IH]; [done|].
  rewrite filter_cons. simpl. case_decide as Hk.
  - simpl. by rewrite IH.
  - rewrite IH. case_decide; [|done]. subst k'. destruct Hk. done.
Qed.

Lemma sorted_keys_of_pairs (l : list (jsstring * jsstring)) :
  (Spec.sort_by_key l).*1 = sort (l.*1).
Proof.
  unfold Spec.sort_by_key, sort. apply (Sorted_unique js_le).
  - apply (Sorted_fmap _ Spec.key_le js_le); [done|].
    apply Sorted_merge_sort, _.
  - apply Sorted_merge_sort, _.
  - by rewrite !merge_sort_Permutation.
Qed.

Lemma map_res_fmap_ext {A B C} (f : B -> res C) (g : A -> B) (h : A -> res C) l :
  (forall x, x ∈ l -> f (g x) = h x) -> map_res f (g <$> l) = map_res h l.
Proof.
  induction l as [|x l IH]; intros Hext; [done|]. csimpl.
  rewrite Hext by left. destruct (h x); [|done].
  rewrite IH; [done|]. intros y Hy. apply Hext. by right.
Qed.

Lemma encode_pair_flatten rest k v :
  get k rest = Some v -> encode_pair rest k = Spec.pair_string (k, Spec.flatten v).
Proof.
  intros Hget. unfold encode_pair, Spec.pair_string, Spec.percentEncode.
  rewrite Hget. by destruct v.
Qed.

Lemma buildHmacMessage_spec q :
  NoDup (object_keys q) -> buildHmacMessage q = Spec.signed_message q.
Proof.
  intros Hnd. unfold buildHmacMessage, Spec.signed_message.
  rewrite <- rest_of_spec.
  replace (object_keys (rest_of q)) with ((Spec.flatten_values (rest_of q)).*1).
  2:{ unfold Spec.flatten_values, object_keys. rewrite <- list_fmap_compose.
      by apply list_fmap_ext. }
  rewrite <- sorted_keys_of_pairs.
  erewrite map_res_fmap_ext; [done|].
  intros [k fv] Hin. unfold Spec.sort_by_key in Hin.
  rewrite merge_sort_Permutation in Hin.
  apply list_elem_of_fmap in Hin as ([k' v] & [= -> ->] & Hin).
  apply encode_pair_flatten. simpl.
  apply list_elem_of_filter in Hin as [[Hh Hs] Hin]. simpl in *.
  rewrite get_rest_of by done. by apply get_Some_elem.
Qed.

(** C2.  For a query object (distinct keys), [buildHmacMessage] yields
    the message built by dropping [hmac] and [signature], joining array
    values with a comma in the order received, sorting the remaining
    keys, percent-encoding keys and values and joining the [key=value]
    pairs with [&]; for [{a: ["x","y"], hmac: H}] the message is
    [a=x%2Cy]. *)
Theorem buildHmacMessage_canonical :
  (forall q, NoDup (object_keys q) -> buildHmacMessage q = Spec.signed_message q)
  /\ (forall H,
        buildHmacMessage [(lit "a", QArr [lit "x"; lit "y"]); (lit "hmac", H)]
        = Ok (lit "a=x%2Cy")).
Proof.
  split; [apply buildHmacMessage_spec|]. intros H. by vm_compute.
Qed.

Lemma buildHmacMessage_canonical_witness :
  NoDup (object_keys (Demo.demo_callback "abc-1.myshopify.com"))
  /\ buildHmacMessage (Demo.demo_callback "abc-1.myshopify.com")
     = Spec.signed_message (Demo.demo_callback "abc-1.myshopify.com").
Proof.
  assert (Hnd : NoDup (object_keys (Demo.demo_callback "abc-1.myshopify.com"))).
  { apply (bool_decide_unpack _). by vm_compute. }
  split; [exact Hnd|].
  exact (proj1 buildHmacMessage_canonical _ Hnd).
Defined.

(** ** Signature verification *)

Section Verify.
Context `{RT : Runtime}.
Variable cfg : config.

Lemma verifyHmac_falsy q w :
  truthy (get (lit "hmac") q) = false ->
  verifyHmac cfg q w = (Ok false, logged (no_hmac_line q) w).
Proof. intros Hf. unfold verifyHmac. by rewrite Hf. Qed.

Lemma verifyHmac_throws q e w :
  truthy (get (lit "hmac") q) = true ->
  buildHmacMessage q = Throw e ->
  verifyHmac cfg q w = (Throw e, w).
Proof.
  intros Ht Hb. unfold verifyHmac. rewrite Ht. simpl.
  unfold bind, lift. by rewrite Hb.
Qed.

Lemma verifyHmac_compares q message supplied w :
  truthy (get (lit "hmac") q) = true ->
  buildHmacMessage q = Ok message ->
  Buffer_from (get (lit "hmac") q) = Ok supplied ->
  fst (verifyHmac cfg q w)
  = Ok (bool_decide
          (utf8_encode (hmac_sha256_hex (CLIENT_SECRET cfg) message) = supplied)).
Proof.
  intros Ht Hb Hs. unfold verifyHmac. rewrite Ht. simpl.
  unfold bind at 1. unfold lift. rewrite Hb.
  unfold bind at 1. unfold createHmac_hex, bind at 1, emit, ret.
  unfold bind at 1.
  erewrite safeCompare_eval; [|done|exact Hs].
  by case_bool_decide.
Qed.

Lemma truthy_Buffer_from v :
  truthy v = true -> exists bytes, Buffer_from v = Ok bytes.
Proof. destruct v as [[s|l]|]; simpl; eauto. done. Qed.

(** Verification answers the same in every world. *)
Lemma verifyHmac_fst_world q w w' :
  fst (verifyHmac cfg q w) = fst (verifyHmac cfg q w').
Proof.
  destruct (truthy (get (lit "hmac") q)) eqn:Ht.
  - destruct (buildHmacMessage q) as [message|e] eqn:Hb.
    + destruct (truthy_Buffer_from _ Ht) as [supplied Hs].
      by rewrite !(verifyHmac_compares q message supplied).
    + by rewrite !(verifyHmac_throws q e).
  - by rewrite !verifyHmac_falsy.
Qed.

(** Verification never touches the registry. *)
Lemma verifyHmac_store q w :
  stateStore (snd (verifyHmac cfg q w)) = stateStore w.
Proof.
  unfold verifyHmac. destruct (truthy (get (lit "hmac") q)) eqn:Ht; simpl; [|done].
  unfold bind at 1. unfold lift.
  destruct (buildHmacMessage q) as [message|e]; [|done].
  unfold bind at 1. unfold createHmac_hex, bind at 1, emit, ret.
  unfold bind at 1.
  destruct (truthy_Buffer_from _ Ht) as [supplied Hs].
  erewrite safeCompare_eval; [|done|exact Hs].
  case_bool_decide; case_decide; done.
Qed.

End Verify.

(** ** Percent-encoding never fails on well-formed strings *)

Lemma high_not_low u : is_high_surrogate u = true -> is_low_surrogate u = false.
Proof.
  unfold is_high_surrogate, is_low_surrogate, in_range.
  rewrite andb_true_iff, andb_false_iff, !Z.leb_le, !Z.leb_gt. lia.
Qed.

Lemma unreserved_not_surrogate u :
  uri_unreserved u = true ->
  is_high_surrogate u = false /\ is_low_surrogate u = false.
Proof.
  unfold uri_unreserved, is_high_surrogate, is_low_surrogate, in_range.
  rewrite !orb_true_iff, !andb_true_iff, !andb_false_iff, !Z.leb_le, !Z.leb_gt.
  rewrite bool_decide_eq_true, !elem_of_cons, elem_of_nil. lia.
Qed.

Lemma encodeURIComponent_total_upto n s :
  (length s <= n)%nat -> well_formed s = true ->
  exists t, encodeURIComponent s = Ok t.
Proof.
  revert s. induction n as [|n IH]; intros [|u s] Hlen Hwf; simpl in *;
    try lia; eauto.
  destruct (uri_unreserved u) eqn:Hun.
  - apply unreserved_not_surrogate in Hun as [Hh Hl].
    rewrite Hh, Hl in Hwf. simpl in Hwf.
    destruct (IH s) as [t Ht]; [lia|done|]. rewrite Ht. eauto.
  - destruct (is_high_surrogate u) eqn:Hhu.
    + destruct s as [|v s]; [done|]. apply andb_true_iff in Hwf as [Hv Hwf].
      rewrite (high_not_low u Hhu), Hv.
      destruct (IH s) as [t Ht]; [simpl in Hlen; lia|done|].
      rewrite Ht. eauto.
    + apply andb_true_iff in Hwf as [Hlow Hwf].
      apply negb_true_iff in Hlow. rewrite Hlow.
      destruct (IH s) as [t Ht]; [lia|done|]. rewrite Ht. eauto.
Qed.

Lemma encodeURIComponent_total s :
  well_formed s = true -> exists t, encodeURIComponent s = Ok t.
Proof. by apply (encodeURIComponent_total_upto (length s)). Qed.

Lemma well_formed_app_upto n a b :
  (length a <= n)%nat ->
  well_formed a = true -> well_formed b = true -> well_formed (a ++ b) = true.
Proof.
  revert a. induction n as [|n IH]; intros [|u a] Hlen Ha Hb; simpl in *;
    try lia; try done.
  destruct (is_high_surrogate u).
  - destruct a as [|v a]; [done|]. simpl in *.
    apply andb_true_iff in Ha as [Hv Ha]. rewrite Hv. simpl.
    apply IH; [lia|done..].
  - apply andb_true_iff in Ha as [Hl Ha]. rewrite Hl. simpl.
    apply IH; [lia|done..].
Qed.

Lemma well_formed_app a b :
  well_formed a = true -> well_formed b = true -> well_formed (a ++ b) = true.
Proof. by apply (well_formed_app_upto (length a)). Qed.

Lemma well_formed_join sep l :
  well_formed sep = true ->
  Forall (fun s => well_formed s = true) l ->
  well_formed (join sep l) = true.
Proof.
  intros Hsep. induction 1 as [|x l Hx Hl IH]; [done|]. simpl.
  destruct l as [|y l]; [done|].
  apply well_formed_app; [done|]. by apply well_formed_app.
Qed.

Lemma map_res_total {A B} (f : A -> res B) l :
  Forall (fun x => exists y, f x = Ok y) l -> exists ys, map_res f l = Ok ys.
Proof.
  induction 1 as [|x l [y Hy] _ [ys Hys]]; simpl; [eauto|].
  rewrite Hy, Hys. eauto.
Qed.

Lemma get_well_formed q k x :
  query_well_formed q -> get k q = Some x -> value_well_formed x.
Proof.
  induction 1 as [|[k0 v0] q [_ Hv0] _ IH]; simpl; [done|].
  case_decide; [by intros [= <-] | done].
Qed.

Lemma rest_of_well_formed q : query_well_formed q -> query_well_formed (rest_of q).
Proof.
  unfold query_well_formed, rest_of. rewrite !Forall_forall.
  intros Hwf x [_ Hx]%list_elem_of_filter. by apply Hwf.
Qed.

Lemma flattened_well_formed (o : value) :
  (forall x, o = Some x -> value_well_formed x) ->
  well_formed (to_string (if is_array o
                          then Some (QStr (array_join (lit ",") o))
                          else o)) = true.
Proof.
  destruct o as [[s|l]|]; intros Ho; simpl; [by apply (Ho (QStr s))| |done].
  apply well_formed_join; [done|]. by apply (Ho (QArr l)).
Qed.

Lemma buildHmacMessage_total q :
  query_well_formed q -> exists message, buildHmacMessage q = Ok message.
Proof.
  intros Hwf%rest_of_well_formed. unfold buildHmacMessage.
  destruct (map_res_total (encode_pair (rest_of q)) (sort (object_keys (rest_of q))))
    as [parts ->]; [|eauto].
  apply Forall_forall. intros k Hk. unfold sort in Hk.
  rewrite merge_sort_Permutation in Hk.
  apply list_elem_of_fmap in Hk as ([k' v] & -> & Hin). simpl.
  assert (Hk' : well_formed k' = true).
  { unfold query_well_formed in Hwf. rewrite Forall_forall in Hwf.
    by destruct (Hwf _ Hin). }
  unfold encode_pair. cbv zeta.
  destruct (encodeURIComponent_total k' Hk') as [ek ->].
  destruct (encodeURIComponent_total _
              (flattened_well_formed (get k' (rest_of q))
                 (fun x => get_well_formed _ _ x Hwf))) as [ev ->].
  eauto.
Qed.

(** ** Claims about signature verification *)

(** C4.  [verifyHmac] answers [false], and does not throw, when the
    [hmac] field is absent, when the computed and the supplied signature
    differ in byte length, and when their bytes differ; this holds
    whatever the other parameters are and whether the supplied [hmac] is
    a string or an array.  On a well-formed query it returns a boolean
    in every case. *)
Theorem verifyHmac_rejects `{RT : Runtime} (cfg : config) (q : query) (w : world) :
  (get (lit "hmac") q = None ->
     verifyHmac cfg q w = (Ok false, logged (no_hmac_line q) w))
  /\ (forall h message computed supplied,
        get (lit "hmac") q = Some h ->
        buildHmacMessage q = Ok message ->
        Buffer_from (Some (QStr (hmac_sha256_hex (CLIENT_SECRET cfg) message)))
          = Ok computed ->
        Buffer_from (Some h) = Ok supplied ->
        length computed <> length supplied \/ computed <> supplied ->
        fst (verifyHmac cfg q w) = Ok false)
  /\ (query_well_formed q -> exists b, fst (verifyHmac cfg q w) = Ok b).
Proof.
  split; [|split].
  - intros Hnone. apply verifyHmac_falsy. by rewrite Hnone.
  - intros h message computed supplied Hh Hb [= <-] Hs Hdiff.
    destruct (truthy (Some h)) eqn:Ht.
    + rewrite (verifyHmac_compares cfg q message supplied);
        [|by rewrite Hh|done|by rewrite Hh].
      rewrite bool_decide_eq_false_2; [done|].
      intros Heq. destruct Hdiff as [Hd|Hd]; apply Hd; by rewrite Heq.
    + rewrite verifyHmac_falsy; [done | by rewrite Hh].
  - intros Hwf. destruct (truthy (get (lit "hmac") q)) eqn:Ht.
    + destruct (buildHmacMessage_total q Hwf) as [message Hb].
      destruct (truthy_Buffer_from _ Ht) as [supplied Hs].
      rewrite (verifyHmac_compares cfg q message supplied) by done. eauto.
    + rewrite verifyHmac_falsy by done. eauto.
Qed.

Lemma verifyHmac_rejects_witness :
  let q := Demo.demo_params "abc-1.myshopify.com"
           ++ [(lit "hmac", QArr [lit "1"; lit "2"])] in
  get (lit "hmac") q = Some (QArr [lit "1"; lit "2"])
  /\ fst (verifyHmac (RT := Demo.demo_runtime) Demo.demo_config q Demo.demo_world)
     = Ok false.
Proof.
  intros q. split; [reflexivity|].
  eapply (proj1 (proj2 (verifyHmac_rejects (RT := Demo.demo_runtime)
                          Demo.demo_config q Demo.demo_world))).
  - reflexivity.
  - vm_compute. reflexivity.
  - reflexivity.
  - reflexivity.
  - left. vm_compute. lia.
Defined.

(** C10.  When the [hmac] field is the empty string, [verifyHmac] takes
    the branch of a missing signature: it logs the [No hmac in query]
    line and answers [false]; no hash is computed and no comparison is
    made, the trace gaining that one console line only. *)
Theorem verifyHmac_empty_hmac `{RT : Runtime} (cfg : config) (q : query) (w : world) :
  get (lit "hmac") q = Some (QStr []) ->
  verifyHmac cfg q w = (Ok false, logged (no_hmac_line q) w)
  /\ trace (snd (verifyHmac cfg q w)) = trace w ++ [no_hmac_line q].
Proof.
  intros Hh. rewrite verifyHmac_falsy; [done|]. by rewrite Hh.
Qed.

Lemma verifyHmac_empty_hmac_witness :
  let q := [(lit "shop", QStr (lit "a.myshopify.com")); (lit "hmac", QStr [])] in
  get (lit "hmac") q = Some (QStr [])
  /\ verifyHmac (RT := Demo.demo_runtime) Demo.demo_config q Demo.demo_world
     = (Ok false, logged (no_hmac_line q) Demo.demo_world).
Proof.
  intros q. split; [reflexivity|].
  exact (proj1 (verifyHmac_empty_hmac (RT := Demo.demo_runtime)
                  Demo.demo_config q Demo.demo_world eq_refl)).
Defined.

(** ** Reordering of parameters *)

Lemma get_Permutation q1 q2 k :
  NoDup (object_keys q1) -> q1 ≡ₚ q2 -> get k q1 = get k q2.
Proof.
  intros Hnd1 Hperm.
  assert (Hnd2 : NoDup (object_keys q2)).
  { unfold object_keys in *. by rewrite <- Hperm. }
  destruct (get k q1) as [v|] eqn:H1.
  - symmetry. apply get_Some_elem; [done|]. rewrite <- Hperm.
    by apply get_Some_elem.
  - destruct (get k q2) as [v|] eqn:H2; [|done].
    apply get_Some_elem in H2; [|done]. rewrite <- Hperm in H2.
    apply get_Some_elem in H2; [|done]. congruence.
Qed.

Lemma map_res_ext {A B} (f h : A -> res B) l :
  (forall x, x ∈ l -> f x = h x) -> map_res f l = map_res h l.
Proof.
  induction l as [|x l IH]; intros Hext; [done|]. simpl.
  rewrite Hext by left. destruct (h x); [|done].
  rewrite IH; [done|]. intros y Hy. apply Hext. by right.
Qed.

Lemma sort_Permutation l1 l2 : l1 ≡ₚ l2 -> sort l1 = sort l2.
Proof.
  intros Hperm. unfold sort. apply (Sorted_unique js_le).
  - apply Sorted_merge_sort, _.
  - apply Sorted_merge_sort, _.
  - by rewrite !merge_sort_Permutation.
Qed.

Lemma rest_of_Permutation q1 q2 : q1 ≡ₚ q2 -> rest_of q1 ≡ₚ rest_of q2.
Proof. intros Hperm. unfold rest_of. by rewrite Hperm. Qed.

Lemma buildHmacMessage_Permutation q1 q2 :
  NoDup (object_keys q1) -> q1 ≡ₚ q2 -> buildHmacMessage q1 = buildHmacMessage q2.
Proof.
  intros Hnd Hperm. unfold buildHmacMessage.
  assert (Hkeys : object_keys (rest_of q1) ≡ₚ object_keys (rest_of q2)).
  { unfold object_keys. by rewrite (rest_of_Permutation q1 q2). }
  rewrite (sort_Permutation _ _ Hkeys).
  rewrite (map_res_ext (encode_pair (rest_of q1)) (encode_pair (rest_of q2)));
    [done|].
  intros k Hk. unfold sort in Hk. rewrite merge_sort_Permutation in Hk.
  apply list_elem_of_fmap in Hk as ([k' v] & -> & Hin).
  apply list_elem_of_filter in Hin as [[Hh Hs] _]. simpl in *.
  unfold encode_pair. rewrite !get_rest_of by done.
  by rewrite (get_Permutation q1 q2).
Qed.

(** C8.  Verification does not depend on the order of the parameters:
    two query objects holding the same key/value pairs (the [hmac]
    included) in different orders get the same answer, for every
    secret. *)
Theorem verifyHmac_order_invariant `{RT : Runtime}
    (cfg : config) (q1 q2 : query) (w : world) :
  NoDup (object_keys q1) ->
  q1 ≡ₚ q2 ->
  fst (verifyHmac cfg q1 w) = fst (verifyHmac cfg q2 w).
Proof.
  intros Hnd Hperm.
  pose proof (get_Permutation q1 q2 (lit "hmac") Hnd Hperm) as Hh.
  pose proof (buildHmacMessage_Permutation q1 q2 Hnd Hperm) as Hb.
  destruct (truthy (get (lit "hmac") q1)) eqn:Ht.
  - destruct (buildHmacMessage q1) as [message|e] eqn:Hb1.
    + destruct (truthy_Buffer_from _ Ht) as [supplied Hs].
      rewrite (verifyHmac_compares cfg q1 message supplied) by done.
      rewrite (verifyHmac_compares cfg q2 message supplied);
        [done | by rewrite <- Hh | done | by rewrite <- Hh].
    + rewrite (verifyHmac_throws cfg q1 e) by done.
      rewrite (verifyHmac_throws cfg q2 e); [done | by rewrite <- Hh | done].
  - rewrite !verifyHmac_falsy; [done | by rewrite <- Hh | done].
Qed.

Lemma verifyHmac_order_invariant_witness :
  let q1 := Demo.demo_callback "abc-1.myshopify.com" in
  let q2 := reverse q1 in
  NoDup (object_keys q1) /\ q1 ≡ₚ q2
  /\ fst (verifyHmac (RT := Demo.demo_runtime) Demo.demo_config q1 Demo.demo_world)
     = fst (verifyHmac (RT := Demo.demo_runtime) Demo.demo_config q2 Demo.demo_world).
Proof.
  intros q1 q2.
  assert (Hnd : NoDup (object_keys q1)).
  { apply (bool_decide_unpack _). by vm_compute. }
  assert (Hperm : q1 ≡ₚ q2).
  { symmetry. apply reverse_Permutation. }
  split; [exact Hnd|]. split; [exact Hperm|].
  exact (verifyHmac_order_invariant (RT := Demo.demo_runtime)
           Demo.demo_config q1 q2 Demo.demo_world Hnd Hperm).
Defined.

(** ** The state registry and the callback gates *)

Lemma state_check_world state w : snd (state_check state w) = w.
Proof.
  unfold state_check. destruct (truthy state); [|done].
  by destruct state as [[s|l]|].
Qed.

(** The state check succeeds exactly on a non-empty string that is a key
    of the registry. *)
Lemma state_check_true state w :
  fst (state_check state w) = Ok true <->
  exists token createdAt,
    state = Some (QStr token) /\ token <> [] /\ stateStore w !! token = Some createdAt.
Proof.
  unfold state_check. destruct state as [[[|u s]|l]|]; simpl.
  - split; [done|]. by intros (? & ? & [= <-] & ? & _).
  - split.
    + intros [= Hd]. apply bool_decide_eq_true in Hd as [createdAt Hc].
      by exists (u :: s), createdAt.
    + intros (token & createdAt & [= <-] & _ & Hc).
      by rewrite bool_decide_eq_true_2.
  - split; [done|]. by intros (? & ? & [=] & _).
  - split; [done|]. by intros (? & ? & [=] & _).
Qed.

Lemma state_check_bool state w : exists b, state_check state w = (Ok b, w).
Proof.
  unfold state_check. destruct (truthy state); [|by eexists].
  destruct state as [[s|l]|]; by eexists.
Qed.

Lemma exchange_response cfg shop code outcome w :
  exists status body w',
    exchange cfg shop code outcome w = (Ok (Send status body), w')
    /\ status <> 400
    /\ stateStore w' = stateStore w.
Proof.
  unfold exchange. destruct outcome as [|text| |json]; simpl.
  - by eexists 500, _, _.
  - by eexists 500, _, _.
  - by eexists 500, _, _.
  - destruct (field_truthy (access_token json)); simpl.
    + by eexists 200, _, _.
    + by eexists 500, _, _.
Qed.

Section Callback.
Context `{RT : Runtime}.
Variable cfg : config.
Implicit Types (q : query) (outcome : fetch_outcome) (w : world).

Lemma callback_bad_shop q outcome w :
  truthy (get (lit "shop") q) && isValidShop (get (lit "shop") q) = false ->
  callback cfg q outcome w
  = (Ok (Send 400 (lit "Invalid shop parameter")), logged (received_line q) w).
Proof.
  intros Hshop. unfold callback, bind at 1. simpl.
  rewrite <- negb_andb, Hshop. done.
Qed.

Lemma callback_no_code q outcome w :
  truthy (get (lit "shop") q) && isValidShop (get (lit "shop") q) = true ->
  truthy (get (lit "code") q) = false ->
  callback cfg q outcome w
  = (Ok (Send 400 (lit "Missing code parameter")), logged (received_line q) w).
Proof.
  intros Hshop Hcode. unfold callback, bind at 1. simpl.
  rewrite <- negb_andb, Hshop, Hcode. done.
Qed.

Lemma callback_bad_state q outcome w :
  truthy (get (lit "shop") q) && isValidShop (get (lit "shop") q) = true ->
  truthy (get (lit "code") q) = true ->
  fst (state_check (get (lit "state") q) w) = Ok false ->
  callback cfg q outcome w
  = (Ok (Send 400 (lit "Invalid or missing state")),
     logged (bad_state_line (get (lit "state") q)) (logged (received_line q) w)).
Proof.
  intros Hshop Hcode Hstate. unfold callback, bind at 1. simpl.
  rewrite <- negb_andb, Hshop, Hcode. simpl. unfold bind at 1.
  fold (received_line q).
  destruct (state_check_bool (get (lit "state") q) (logged (received_line q) w))
    as [b Hb].
  rewrite Hb.
  assert (b = false) as ->; [|done].
  destruct (state_check_bool (get (lit "state") q) w) as [b' Hb'].
  rewrite Hb' in Hstate. injection Hstate as ->.
  unfold state_check in *. destruct (truthy (get (lit "state") q)).
  - destruct (get (lit "state") q) as [[s|l]|]; simpl in *; congruence.
  - simpl in *. unfold ret in *. congruence.
Qed.

Lemma callback_past_state q outcome w :
  truthy (get (lit "shop") q) && isValidShop (get (lit "shop") q) = true ->
  truthy (get (lit "code") q) = true ->
  fst (state_check (get (lit "state") q) w) = Ok true ->
  callback cfg q outcome w
  = match verifyHmac cfg q (logged (received_line q) w) with
    | (Ok true, w1) =>
        exchange cfg (get (lit "shop") q) (get (lit "code") q) outcome
          (snd (store_delete (get (lit "state") q) w1))
    | (Ok false, w1) => (Ok (Send 400 (lit "HMAC validation failed")), w1)
    | (Throw e, w1) => (Throw e, w1)
    end.
Proof.
  intros Hshop Hcode Hstate. unfold callback, bind at 1. simpl.
  rewrite <- negb_andb, Hshop, Hcode. simpl. unfold bind at 1.
  fold (received_line q).
  destruct (state_check_bool (get (lit "state") q) (logged (received_line q) w))
    as [b Hb].
  rewrite Hb.
  assert (b = true) as ->.
  { destruct (state_check_bool (get (lit "state") q) w) as [b' Hb'].
    rewrite Hb' in Hstate. injection Hstate as ->.
    unfold state_check in *. destruct (truthy (get (lit "state") q)).
    - destruct (get (lit "state") q) as [[s|l]|]; simpl in *; congruence.
    - simpl in *. unfold ret in *. congruence. }
  simpl. unfold bind at 1.
  destruct (verifyHmac cfg q (logged (received_line q) w)) as [[[|]|e] w1];
    simpl; try done.
  unfold bind. by destruct (store_delete (get (lit "state") q) w1) as [[[]|] ?] eqn:Hd;
    [|destruct (get (lit "state") q) as [[s|l]|]; simpl in Hd].
Qed.

End Callback.

(** ** Claims about the callback handler *)

(** C5.  The gates of the callback short-circuit in order.  When the
    shop check fails the handler answers [400 Invalid shop parameter]
    having done nothing but log the request: no hash is computed, no
    comparison is made, the registry is untouched.  When signature
    verification does not succeed, the registry after the handler is the
    registry before it: a token is deleted only after [verifyHmac]
    returned [true]. *)
Theorem callback_gates_short_circuit `{RT : Runtime}
    (cfg : config) (q : query) (outcome : fetch_outcome) (w : world) :
  (truthy (get (lit "shop") q) && isValidShop (get (lit "shop") q) = false ->
     callback cfg q outcome w
     = (Ok (Send 400 (lit "Invalid shop parameter")), logged (received_line q) w))
  /\ (fst (verifyHmac cfg q w) <> Ok true ->
        stateStore (snd (callback cfg q outcome w)) = stateStore w).
Proof.
  split; [apply callback_bad_shop|]. intros Hverify.
  rewrite (verifyHmac_fst_world cfg q w (logged (received_line q) w)) in Hverify.
  destruct (truthy (get (lit "shop") q) && isValidShop (get (lit "shop") q)) eqn:Hshop;
    [|by rewrite callback_bad_shop].
  destruct (truthy (get (lit "code") q)) eqn:Hcode;
    [|by rewrite callback_no_code].
  destruct (state_check_bool (get (lit "state") q) w) as [[|] Hknown].
  - rewrite callback_past_state; [|done|done|by rewrite Hknown].
    pose proof (verifyHmac_store cfg q (logged (received_line q) w)) as Hstore.
    destruct (verifyHmac cfg q (logged (received_line q) w)) as [[[|]|e] w1];
      simpl in *; done.
  - rewrite callback_bad_state; [done|done|done|by rewrite Hknown].
Qed.

Lemma callback_gates_short_circuit_witness :
  let q := [(lit "shop", QStr (lit "-abc.myshopify.com"));
            (lit "code", QStr (lit "c0de"));
            (lit "state", QStr Demo.demo_token)] in
  truthy (get (lit "shop") q) && isValidShop (get (lit "shop") q) = false
  /\ callback (RT := Demo.demo_runtime) Demo.demo_config q FetchRejected Demo.demo_world
     = (Ok (Send 400 (lit "Invalid shop parameter")),
        logged (received_line q) Demo.demo_world)
  /\ fst (verifyHmac (RT := Demo.demo_runtime) Demo.demo_config
            (Demo.demo_params "abc-1.myshopify.com") Demo.demo_world) <> Ok true
  /\ stateStore (snd (callback (RT := Demo.demo_runtime) Demo.demo_config
                        (Demo.demo_params "abc-1.myshopify.com") FetchRejected
                        Demo.demo_world))
     = stateStore Demo.demo_world.
Proof.
  intros q.
  assert (H1 : truthy (get (lit "shop") q) && isValidShop (get (lit "shop") q) = false)
    by (by vm_compute).
  assert (H2 : fst (verifyHmac (RT := Demo.demo_runtime) Demo.demo_config
            (Demo.demo_params "abc-1.myshopify.com") Demo.demo_world) <> Ok true)
    by (by vm_compute).
  split; [exact H1|]. split.
  - exact (proj1 (callback_gates_short_circuit (RT := Demo.demo_runtime)
                    Demo.demo_config q FetchRejected Demo.demo_world) H1).
  - split; [exact H2|].
    exact (proj2 (callback_gates_short_circuit (RT := Demo.demo_runtime)
                    Demo.demo_config (Demo.demo_params "abc-1.myshopify.com")
                    FetchRejected Demo.demo_world) H2).
Defined.

Lemma state_check_absent token w :
  stateStore w !! token = None ->
  fst (state_check (Some (QStr token)) w) = Ok false.
Proof.
  intros Hnone.
  destruct (state_check_bool (Some (QStr token)) w) as [[|] Hb];
    rewrite Hb; [|done].
  assert (Ht : fst (state_check (Some (QStr token)) w) = Ok true) by (by rewrite Hb).
  apply state_check_true in Ht as (token' & createdAt & [= <-] & _ & Hc).
  congruence.
Qed.

(** A callback never answers anything but [400] when the state check
    fails, and it leaves the registry as it was. *)
Lemma callback_rejects_unknown_state `{RT : Runtime} cfg q outcome w :
  fst (state_check (get (lit "state") q) w) = Ok false ->
  exists body w',
    callback cfg q outcome w = (Ok (Send 400 body), w')
    /\ stateStore w' = stateStore w.
Proof.
  intros Hstate.
  destruct (truthy (get (lit "shop") q) && isValidShop (get (lit "shop") q)) eqn:Hshop;
    [|rewrite callback_bad_shop by done; by eexists _, _].
  destruct (truthy (get (lit "code") q)) eqn:Hcode;
    [|rewrite callback_no_code by done; by eexists _, _].
  rewrite callback_bad_state by done. by eexists _, _.
Qed.

(** C3.  State tokens are single-use.  If a callback gets past its gates
    (it answers something other than [400], so the token was deleted
    after validation), then the token is no longer in the registry, the
    state check on the same value fails, and any further callback
    carrying that value is answered [400]. *)
Theorem state_token_single_use `{RT : Runtime}
    (cfg : config) (q : query) (outcome : fetch_outcome) (w w1 : world)
    (status : Z) (body : jsstring) :
  callback cfg q outcome w = (Ok (Send status body), w1) ->
  status <> 400 ->
  (exists token,
      get (lit "state") q = Some (QStr token)
      /\ stateStore w1 = delete token (stateStore w))
  /\ fst (state_check (get (lit "state") q) w1) = Ok false
  /\ (forall q' outcome',
        get (lit "state") q' = get (lit "state") q ->
        exists body' w2,
          callback cfg q' outcome' w1 = (Ok (Send 400 body'), w2)
          /\ stateStore w2 = stateStore w1).
Proof.
  intros Hcb Hstatus.
  assert (Hdel : exists token,
             get (lit "state") q = Some (QStr token)
             /\ stateStore w1 = delete token (stateStore w)).
  { destruct (truthy (get (lit "shop") q) && isValidShop (get (lit "shop") q)) eqn:Hshop;
      [|rewrite callback_bad_shop in Hcb by done; congruence].
    destruct (truthy (get (lit "code") q)) eqn:Hcode;
      [|rewrite callback_no_code in Hcb by done; congruence].
    destruct (state_check_bool (get (lit "state") q) w) as [[|] Hknown];
      [|rewrite callback_bad_state in Hcb; [congruence|done|done|by rewrite Hknown]].
    assert (Hk : fst (state_check (get (lit "state") q) w) = Ok true)
      by (by rewrite Hknown).
    rewrite callback_past_state in Hcb by done.
    apply state_check_true in Hk as (token & createdAt & Hstate & _ & _).
    exists token. split; [done|].
    pose proof (verifyHmac_store cfg q (logged (received_line q) w)) as Hstore.
    destruct (verifyHmac cfg q (logged (received_line q) w)) as [[[|]|e] w0];
      [|congruence..].
    rewrite Hstate in Hcb. simpl in Hcb, Hstore.
    destruct (exchange_response cfg (get (lit "shop") q) (get (lit "code") q) outcome
                {| stateStore := delete token (stateStore w0); trace := trace w0 |})
      as (st & bd & w' & Hex & _ & Hst).
    rewrite Hex in Hcb. injection Hcb as _ _ <-.
    by rewrite Hst, <- Hstore. }
  destruct Hdel as (token & Hstate & Hstore).
  assert (Hgone : fst (state_check (get (lit "state") q) w1) = Ok false).
  { rewrite Hstate. apply state_check_absent.
    rewrite Hstore. apply lookup_delete_eq. }
  split; [by exists token|]. split; [done|].
  intros q' outcome' Hsame.
  apply callback_rejects_unknown_state. by rewrite Hsame.
Qed.

Lemma state_token_single_use_witness :
  let q := Demo.demo_callback "abc-1.myshopify.com" in
  let r := callback (RT := Demo.demo_runtime) Demo.demo_config q
             (FetchJson Demo.demo_json) Demo.demo_world in
  fst r = Ok (Send 200 (Demo.success_page "abc-1.myshopify.com"))
  /\ fst (state_check (get (lit "state") q) (snd r)) = Ok false.
Proof.
  intros q r.
  assert (Hr : r = (Ok (Send 200 (Demo.success_page "abc-1.myshopify.com")), snd r)).
  { apply injective_projections; [by vm_compute | done]. }
  split; [by vm_compute|].
  exact (proj1 (proj2 (state_token_single_use (RT := Demo.demo_runtime)
           Demo.demo_config q (FetchJson Demo.demo_json) Demo.demo_world (snd r)
           200 (Demo.success_page "abc-1.myshopify.com") Hr ltac:(lia)))).
Defined.

(** ** Issuing tokens *)

Lemma hex_of_bytes_nonempty b bytes : hex_of_bytes (b :: bytes) <> [].
Proof. done. Qed.

Lemma install_issues `{RT : Runtime} cfg q entropy now w :
  truthy (get (lit "shop") q) && isValidShop (get (lit "shop") q) = true ->
  stateStore (snd (install cfg q entropy now w))
  = <[hex_of_bytes (take 16 entropy) := now]> (stateStore w)
  /\ (fst (install cfg q entropy now w) = Throw TypeError
      \/ exists target,
           fst (install cfg q entropy now w) = Ok (Redirect target)
           /\ url_params target
              = [(lit "client_id", CLIENT_ID cfg); (lit "scope", SCOPES cfg);
                 (lit "redirect_uri", REDIRECT_URI cfg);
                 (lit "state", hex_of_bytes (take 16 entropy))]).
Proof.
  intros Hshop. unfold install. rewrite <- negb_andb, Hshop. simpl.
  unfold bind at 1. simpl. unfold bind at 1. simpl. unfold bind at 1.
  unfold construct_URL. destruct (new_URL _) as [base|]; simpl.
  - split; [done|]. right. by eexists.
  - split; [done|]. by left.
Qed.

(** C9.  A state token is not tied to the shop it was issued for.  The
    install handler records the token with its creation time and nothing
    else, and hands it out in the [state] parameter of its redirect.
    The callback's state check is a test of presence in the registry and
    of nothing else: it passes exactly when the state parameter is a
    non-empty string that is a key of the registry.  So a callback for
    any shop B carrying the token issued for shop A passes the check and
    goes on to signature verification, and a callback whose state is not
    a key of the registry is answered [400 Invalid or missing state]. *)
Theorem state_not_bound_to_shop `{RT : Runtime}
    (cfg : config) (qA qB : query) (entropy : list Z) (now : Z)
    (outcome : fetch_outcome) (w : world) :
  truthy (get (lit "shop") qA) && isValidShop (get (lit "shop") qA) = true ->
  length entropy = 16%nat ->
  truthy (get (lit "shop") qB) && isValidShop (get (lit "shop") qB) = true ->
  truthy (get (lit "code") qB) = true ->
  stateStore (snd (install cfg qA entropy now w))
  = <[hex_of_bytes (take 16 entropy) := now]> (stateStore w)
  /\ (fst (install cfg qA entropy now w) = Throw TypeError
      \/ exists target,
           fst (install cfg qA entropy now w) = Ok (Redirect target)
           /\ (lit "state", hex_of_bytes (take 16 entropy)) ∈ url_params target)
  /\ (fst (state_check (get (lit "state") qB) (snd (install cfg qA entropy now w)))
       = Ok true
      <-> exists t c,
            get (lit "state") qB = Some (QStr t) /\ t <> []
            /\ stateStore (snd (install cfg qA entropy now w)) !! t = Some c)
  /\ (get (lit "state") qB = Some (QStr (hex_of_bytes (take 16 entropy))) ->
      fst (state_check (get (lit "state") qB) (snd (install cfg qA entropy now w)))
      = Ok true
      /\ callback cfg qB outcome (snd (install cfg qA entropy now w))
         = match verifyHmac cfg qB
                   (logged (received_line qB) (snd (install cfg qA entropy now w)))
           with
           | (Ok true, w2) =>
               exchange cfg (get (lit "shop") qB) (get (lit "code") qB) outcome
                 (snd (store_delete (get (lit "state") qB) w2))
           | (Ok false, w2) => (Ok (Send 400 (lit "HMAC validation failed")), w2)
           | (Throw e, w2) => (Throw e, w2)
           end)
  /\ (~ (exists t c,
           get (lit "state") qB = Some (QStr t) /\ t <> []
           /\ stateStore (snd (install cfg qA entropy now w)) !! t = Some c) ->
      callback cfg qB outcome (snd (install cfg qA entropy now w))
      = (Ok (Send 400 (lit "Invalid or missing state")),
         logged (bad_state_line (get (lit "state") qB))
           (logged (received_line qB) (snd (install cfg qA entropy now w))))).
Proof.
  intros HshopA Hlen HshopB HcodeB.
  destruct (install_issues cfg qA entropy now w HshopA) as [Hstore Hanswer].
  split; [done|]. split.
  { destruct Hanswer as [Hthrow|(target & Hredirect & Hparams)]; [by left|].
    right. exists target. split; [done|]. rewrite Hparams. set_solver. }
  split; [apply state_check_true|]. split.
  - intros HstateB.
    assert (Hk : fst (state_check (get (lit "state") qB)
                        (snd (install cfg qA entropy now w))) = Ok true).
    { apply state_check_true.
      exists (hex_of_bytes (take 16 entropy)), now. split; [done|]. split.
      - destruct entropy as [|b entropy]; [done|]. apply hex_of_bytes_nonempty.
      - rewrite Hstore. apply lookup_insert_eq. }
    split; [done|]. by apply callback_past_state.
  - intros Habsent. apply callback_bad_state; [done|done|].
    destruct (state_check_bool (get (lit "state") qB)
                (snd (install cfg qA entropy now w))) as [[|] Hb];
      rewrite Hb; [|done].
    destruct Habsent. apply state_check_true. by rewrite Hb.
Qed.

Lemma state_not_bound_to_shop_witness :
  let qA := [(lit "shop", QStr (lit "shop-a.myshopify.com"))] in
  let qB := Demo.demo_callback "shop-b.myshopify.com" in
  get (lit "state") qB = Some (QStr (hex_of_bytes (take 16 Demo.demo_entropy)))
  /\ fst (state_check (get (lit "state") qB)
            (snd (install (RT := Demo.demo_runtime) Demo.demo_config qA
                    Demo.demo_entropy 1000 Demo.empty_world)))
     = Ok true.
Proof.
  intros qA qB.
  assert (Hstate : get (lit "state") qB
                   = Some (QStr (hex_of_bytes (take 16 Demo.demo_entropy))))
    by reflexivity.
  split; [exact Hstate|].
  exact (proj1 (proj1 (proj2 (proj2 (proj2
           (state_not_bound_to_shop (RT := Demo.demo_runtime) Demo.demo_config
              qA qB Demo.demo_entropy 1000 FetchRejected Demo.empty_world
              eq_refl eq_refl eq_refl eq_refl)))) Hstate)).
Defined.

(** ** Expiry of state tokens *)

Lemma sweep_removes_expired now token createdAt w :
  stateStore w !! token = Some createdAt ->
  now - createdAt > STATE_TTL_MS ->
  stateStore (snd (sweep now w)) !! token = None.
Proof.
  intros Hc Hage. simpl. apply map_lookup_filter_None. right.
  intros x Hx. simpl. rewrite Hc in Hx. injection Hx as <-. tauto.
Qed.

Lemma sweep_keeps_fresh now token createdAt w :
  stateStore w !! token = Some createdAt ->
  now - createdAt <= STATE_TTL_MS ->
  stateStore (snd (sweep now w)) !! token = Some createdAt.
Proof.
  intros Hc Hage. simpl. apply map_lookup_filter_Some. split; [done|].
  simpl. lia.
Qed.

(** C1, as the code has it.  The callback's state check looks only at
    whether the token is a key of the registry; it does not read the
    clock or the stored creation time.  A token older than the TTL is
    refused with [400 Invalid or missing state] once a sweep has run at
    such a time and removed it. *)
Theorem state_expires_at_sweep `{RT : Runtime}
    (cfg : config) (q : query) (outcome : fetch_outcome) (w : world)
    (now createdAt : Z) (token : jsstring) :
  (fst (state_check (get (lit "state") q) w) = Ok true <->
     exists t c, get (lit "state") q = Some (QStr t) /\ t <> []
                 /\ stateStore w !! t = Some c)
  /\ (get (lit "state") q = Some (QStr token) ->
      stateStore w !! token = Some createdAt ->
      now - createdAt > STATE_TTL_MS ->
      truthy (get (lit "shop") q) && isValidShop (get (lit "shop") q) = true ->
      truthy (get (lit "code") q) = true ->
      callback cfg q outcome (snd (sweep now w))
      = (Ok (Send 400 (lit "Invalid or missing state")),
         logged (bad_state_line (get (lit "state") q))
           (logged (received_line q) (snd (sweep now w))))).
Proof.
  split; [apply state_check_true|].
  intros Hstate Hc Hage Hshop Hcode.
  apply callback_bad_state; [done..|].
  rewrite Hstate. apply state_check_absent.
  by apply (sweep_removes_expired now token createdAt).
Qed.

Lemma state_expires_at_sweep_witness :
  let q := Demo.demo_callback "abc-1.myshopify.com" in
  fst (callback (RT := Demo.demo_runtime) Demo.demo_config q FetchRejected
         (snd (sweep 600001 Demo.demo_world)))
  = Ok (Send 400 (lit "Invalid or missing state")).
Proof.
  intros q.
  rewrite (proj2 (state_expires_at_sweep (RT := Demo.demo_runtime)
                    Demo.demo_config q FetchRejected Demo.demo_world
                    600001 0 Demo.demo_token)
             eq_refl eq_refl ltac:(reflexivity) eq_refl eq_refl).
  reflexivity.
Defined.

(** C1, counterexample.  Install at 1000 ms; the sweeps of the next ten
    minutes leave the token in place, the last of them finding it 599
    seconds old; a correctly signed callback at 601500 ms, when the
    token is older than [STATE_TTL_MS], is answered with the success
    page. *)
Lemma expired_state_still_accepted :
  601500 - 1000 > STATE_TTL_MS
  /\ match fst (run (RT := Demo.demo_runtime) Demo.demo_config
                  Demo.late_callback_timeline Demo.empty_world) with
     | Ok responses =>
         last responses
         = Some (Some (Send 200 (Demo.success_page "abc-1.myshopify.com")))
     | Throw _ => False
     end.
Proof. split; [reflexivity | by vm_compute]. Qed.

(** * Further properties of the code *)

(** ** The sweep *)

(** X1.  After the sweep has run at time [now], the registry holds
    exactly the entries that were there and are at most [STATE_TTL_MS]
    old, with their creation times unchanged: an entry exactly
    [STATE_TTL_MS] old survives, no entry is added, and nothing is
    logged. *)
Theorem sweep_survivors (now : Z) (w : world) :
  (forall token createdAt,
      stateStore (snd (sweep now w)) !! token = Some createdAt
      <-> stateStore w !! token = Some createdAt
          /\ now - createdAt <= STATE_TTL_MS)
  /\ stateStore (snd (sweep now w)) ⊆ stateStore w
  /\ trace (snd (sweep now w)) = trace w.
Proof.
  split; [|split; [apply map_filter_subseteq | done]].
  intros token createdAt. simpl. rewrite map_lookup_filter_Some. simpl.
  split; intros [? ?]; split; (done || lia).
Qed.

(** X2.  Sweeps compose: a sweep followed by a later sweep leaves the
    world the later sweep alone would have left. *)
Theorem sweep_then_later_sweep (now1 now2 : Z) (w : world) :
  now1 <= now2 ->
  snd (sweep now2 (snd (sweep now1 w))) = snd (sweep now2 w).
Proof.
  intros Hle. simpl. f_equal. apply map_filter_filter_l.
  intros token createdAt _. simpl. lia.
Qed.

Lemma sweep_then_later_sweep_witness :
  60000 <= 660000
  /\ snd (sweep 660000 (snd (sweep 60000 Demo.demo_world)))
     = snd (sweep 660000 Demo.demo_world).
Proof.
  assert (H : 60000 <= 660000) by lia.
  split; [exact H|].
  exact (sweep_then_later_sweep 60000 660000 Demo.demo_world H).
Defined.

(** ** Tokens issued by [/install] *)


Lemma nibbles_of_byte b :
  0 <= b < 256 -> 0 <= Z.shiftr b 4 < 16 /\ 0 <= Z.land b 0xF < 16.
Proof.
  intros Hb. rewrite Z.shiftr_div_pow2 by lia.
  change 0xF with (Z.ones 4). rewrite Z.land_ones by lia.
  change (2 ^ 4) with 16. split.
  - split; [apply Z.div_pos; lia | apply Z.div_lt_upper_bound; lia].
  - apply Z.mod_pos_bound. lia.
Qed.

Lemma byte_of_nibbles b : Z.shiftr b 4 * 16 + Z.land b 0xF = b.
Proof.
  rewrite Z.shiftr_div_pow2 by lia.
  change 0xF with (Z.ones 4). rewrite Z.land_ones by lia.
  change (2 ^ 4) with 16. pose proof (Z.div_mod b 16 ltac:(lia)). lia.
Qed.

Lemma hex_digit_lower_inj m n :
  0 <= m < 16 -> 0 <= n < 16 -> hex_digit_lower m = hex_digit_lower n -> m = n.
Proof.
  unfold hex_digit_lower. intros Hm Hn.
  destruct (Z.ltb_spec m 10), (Z.ltb_spec n 10); lia.
Qed.

Lemma hex_of_bytes_cons b l :
  hex_of_bytes (b :: l)
  = hex_digit_lower (Z.shiftr b 4) :: hex_digit_lower (Z.land b 0xF) :: hex_of_bytes l.
Proof. done. Qed.



Lemma hex_of_bytes_inj a b :
  Props.bytes a -> Props.bytes b -> hex_of_bytes a = hex_of_bytes b -> a = b.
Proof.
  intros Ha. revert b. induction Ha as [|x a Hx _ IH]; intros [|y b] Hb Heq;
    try done.
  apply Forall_cons in Hb as [Hy Hb]. rewrite !hex_of_bytes_cons in Heq.
  injection Heq as Hhi Hlo Hrest.
  destruct (nibbles_of_byte x Hx), (nibbles_of_byte y Hy).
  apply hex_digit_lower_inj in Hhi; [|done..].
  apply hex_digit_lower_inj in Hlo; [|done..].
  f_equal; [|by apply IH].
  rewrite <- (byte_of_nibbles x), <- (byte_of_nibbles y). lia.
Qed.



(** X4.  Two installs that draw different random bytes issue different
    tokens, and the second does not disturb the first: afterwards the
    registry holds both, each with its own creation time. *)
Theorem installs_do_not_collide `{RT : Runtime} (cfg : config) (q1 q2 : query)
    (e1 e2 : list Z) (now1 now2 : Z) (w : world) :
  truthy (get (lit "shop") q1) && isValidShop (get (lit "shop") q1) = true ->
  truthy (get (lit "shop") q2) && isValidShop (get (lit "shop") q2) = true ->
  length e1 = 16%nat -> length e2 = 16%nat ->
  Props.bytes e1 -> Props.bytes e2 ->
  e1 <> e2 ->
  exists w2,
    snd (install cfg q2 e2 now2 (snd (install cfg q1 e1 now1 w))) = w2
    /\ hex_of_bytes e1 <> hex_of_bytes e2
    /\ stateStore w2 !! hex_of_bytes e1 = Some now1
    /\ stateStore w2 !! hex_of_bytes e2 = Some now2.
Proof.
  intros Hs1 Hs2 Hl1 Hl2 Hb1 Hb2 Hne.
  destruct (install_issues cfg q1 e1 now1 w Hs1) as [Hst1 _].
  set (w1 := snd (install cfg q1 e1 now1 w)) in *.
  destruct (install_issues cfg q2 e2 now2 w1 Hs2) as [Hst2 _].
  set (w2 := snd (install cfg q2 e2 now2 w1)) in *.
  exists w2. split; [done|].
  rewrite firstn_all2 in Hst1, Hst2 by lia.
  assert (Htok : hex_of_bytes e1 <> hex_of_bytes e2).
  { intros Heq. by apply Hne, hex_of_bytes_inj. }
  split; [done|]. rewrite Hst2, Hst1. split.
  - rewrite lookup_insert_ne by done. apply lookup_insert_eq.
  - apply lookup_insert_eq.
Qed.

Lemma installs_do_not_collide_witness :
  let q := [(lit "shop", QStr (lit "abc-1.myshopify.com"))] in
  let e2 := replicate 16 7 in
  exists w2,
    snd (install (RT := Demo.demo_runtime) Demo.demo_config q e2 2000
           (snd (install (RT := Demo.demo_runtime) Demo.demo_config q
                   Demo.demo_entropy 1000 Demo.empty_world)))
    = w2
    /\ stateStore w2 !! hex_of_bytes Demo.demo_entropy = Some 1000
    /\ stateStore w2 !! hex_of_bytes e2 = Some 2000.
Proof.
  intros q e2.
  destruct (installs_do_not_collide (RT := Demo.demo_runtime)
              Demo.demo_config q q Demo.demo_entropy e2
              1000 2000 Demo.empty_world eq_refl eq_refl eq_refl eq_refl)
    as (w2 & Hw & _ & H1 & H2).
  - unfold Props.bytes, Demo.demo_entropy. repeat constructor; lia.
  - unfold Props.bytes, e2. simpl. repeat constructor; lia.
  - discriminate.
  - by exists w2.
Defined.

(** ** The shop check on every kind of value *)

Lemma isValidShop_shaped (v : value) :
  isValidShop v = true <-> Spec.shop_shaped (to_string v).
Proof.
  unfold isValidShop, shop_pattern, Spec.shop_shaped.
  rewrite test_anchored_lang, lang_cat_inv.
  setoid_rewrite lang_cat_inv. setoid_rewrite lang_class_inv.
  setoid_rewrite lang_star_class. setoid_rewrite lang_lit.
  setoid_rewrite class_alnum. split.
  - intros (s1 & s2 & -> & (c & -> & Hc) & (mid & suf & -> & Hmid & ->)).
    exists c, mid. split; [done|]. split; [done|].
    eapply Forall_impl; [exact Hmid|]. intros u. apply class_alnum_hyphen.
  - intros (c & mid & -> & Hc & Hmid).
    exists [c], (mid ++ lit ".myshopify.com"). split; [done|].
    split; [by exists c|].
    exists mid, (lit ".myshopify.com"). split; [done|]. split; [|done].
    eapply Forall_impl; [exact Hmid|]. intros u. apply class_alnum_hyphen.
Qed.

Lemma shop_shaped_no_comma s : Spec.shop_shaped s -> 44 ∉ s.
Proof.
  intros (c & mid & -> & Hc & Hmid) Hin.
  apply elem_of_cons in Hin as [Heq|Hin].
  { unfold Spec.alphanumeric in Hc. lia. }
  apply elem_of_app in Hin as [Hin|Hin].
  - rewrite Forall_forall in Hmid. specialize (Hmid _ Hin).
    unfold Spec.alphanumeric, Spec.hyphen in Hmid. lia.
  - revert Hin. apply (bool_decide_unpack _). by vm_compute.
Qed.

Lemma join_two_has_sep sep x y l : sep <> [] -> exists u, u ∈ sep /\ u ∈ join sep (x :: y :: l).
Proof.
  destruct sep as [|u sep]; [done|]. intros _. exists u. split; [left|].
  simpl. apply elem_of_app. right. left.
Qed.

(** X5.  On a repeated [shop] parameter (an array) the check passes only
    for an array of exactly one element that is itself a well-shaped
    shop; an empty array, or two or more values, are refused whatever
    they are; so is a missing parameter. *)
Theorem isValidShop_on_arrays :
  (forall elems,
      isValidShop (Some (QArr elems)) = true
      <-> exists s, elems = [s] /\ Spec.shop_shaped s)
  /\ isValidShop None = false.
Proof.
  split; [|by vm_compute]. intros elems. rewrite isValidShop_shaped. simpl.
  destruct elems as [|x [|y l]].
  - split.
    + intros (c & mid & Hnil & _). done.
    + intros (s & [=] & _).
  - simpl. split; [by exists x | by intros (s & [= ->] & ?)].
  - split; [|by intros (s & [=] & _)].
    intros Hshaped%shop_shaped_no_comma.
    destruct (join_two_has_sep [44] x y l) as (u & Hu & Hin); [done|].
    apply elem_of_cons in Hu as [->|Hu]; [done | by apply elem_of_nil in Hu].
Qed.

(** ** The install handler as a whole *)

(** X6.  [/install] ends in one of three ways.  On a missing or
    ill-shaped shop it answers [400] and leaves the world as it was: no
    random bytes are drawn, no token is recorded, nothing is logged.
    Otherwise the shop is well shaped, 16 random bytes are drawn and the
    token is recorded; then, if the URL parser refuses
    [https://<shop>/admin/oauth/authorize], the handler throws a
    [TypeError] without logging or redirecting, and if it accepts, the
    handler logs one line and redirects to the URL the parser
    returned. *)
Theorem install_outcome `{RT : Runtime}
    (cfg : config) (q : query) (entropy : list Z) (now : Z) (w : world) :
  (truthy (get (lit "shop") q) && isValidShop (get (lit "shop") q) = false
   /\ install cfg q entropy now w
      = (Ok (Send 400 (lit "Invalid ?shop parameter")), w))
  \/ (Spec.shop_shaped (to_string (get (lit "shop") q))
      /\ exists stored,
           stateStore stored
           = <[hex_of_bytes (take 16 entropy) := now]> (stateStore w)
           /\ trace stored = trace w ++ [RandomBytes 16]
           /\ ((new_URL (lit "https://" ++ to_string (get (lit "shop") q)
                         ++ lit "/admin/oauth/authorize") = None
                /\ install cfg q entropy now w = (Throw TypeError, stored))
               \/ exists target,
                    new_URL (lit "https://" ++ to_string (get (lit "shop") q)
                             ++ lit "/admin/oauth/authorize")
                    = Some (url_base target)
                    /\ install cfg q entropy now w
                       = (Ok (Redirect target),
                          logged (ConsoleLog
                                    [AStr (lit "Redirecting to Shopify authorize URL:");
                                     AUrl target]) stored))).
Proof.
  destruct (truthy (get (lit "shop") q) && isValidShop (get (lit "shop") q))
    eqn:Hshop.
  - right. apply andb_true_iff in Hshop as Hboth. destruct Hboth as [_ Hvalid].
    split; [by apply isValidShop_shaped|].
    unfold install. rewrite <- negb_andb, Hshop. simpl.
    unfold bind at 1. simpl. unfold bind at 1. simpl. unfold bind at 1.
    unfold construct_URL. eexists. split; [|split]; [| |
      destruct (new_URL _) as [base|] eqn:Hurl; simpl;
        [right; eexists {| url_base := base |}; split; [done|]; reflexivity
        |left; split; [done|]; reflexivity]];
      done.
  - left. split; [done|]. unfold install. by rewrite <- negb_andb, Hshop.
Qed.

(** ** The callback handler as a whole *)

Lemma trace_logged e w : trace (logged e w) = trace w ++ [e].
Proof. done. Qed.

Lemma verifyHmac_trace `{RT : Runtime} cfg q w :
  exists evs,
    trace (snd (verifyHmac cfg q w)) = trace w ++ evs
    /\ Forall (fun e => Props.is_fetch e = false) evs.
Proof.
  unfold verifyHmac. destruct (truthy (get (lit "hmac") q)) eqn:Ht; simpl.
  2:{ eexists. split; [done|]. by repeat constructor. }
  unfold bind at 1. unfold lift.
  destruct (buildHmacMessage q) as [message|e].
  2:{ exists []. by rewrite app_nil_r. }
  unfold bind at 1. unfold createHmac_hex, bind at 1, emit, ret.
  unfold bind at 1.
  destruct (truthy_Buffer_from _ Ht) as [supplied Hs].
  erewrite safeCompare_eval; [|done|exact Hs].
  case_bool_decide; case_decide; simpl;
    (eexists; split; [by rewrite <- ?app_assoc | by repeat constructor]).
Qed.

Lemma exchange_trace cfg shop code outcome w :
  exists body evs,
    trace (snd (exchange cfg shop code outcome w))
    = trace w
      ++ Fetch (lit "https://" ++ to_string shop ++ lit "/admin/oauth/access_token") body
         :: evs
    /\ (lit "client_secret", CLIENT_SECRET cfg) ∈ body
    /\ (lit "code", to_string code) ∈ body
    /\ Forall (fun e => Props.is_fetch e = false) evs.
Proof.
  unfold exchange.
  destruct outcome as [|text| |json]; simpl;
    try destruct (field_truthy (access_token json)); simpl;
    (eexists _, _; split; [by rewrite <- ?app_assoc|];
     split; [set_solver|]; split; [set_solver|]; by repeat constructor).
Qed.

Lemma exchange_status cfg shop code outcome w :
  exists status body,
    fst (exchange cfg shop code outcome w) = Ok (Send status body)
    /\ (status = 200 \/ status = 500)
    /\ (status = 200 <->
        exists json, outcome = FetchJson json
                     /\ field_truthy (access_token json) = true).
Proof.
  unfold exchange. destruct outcome as [|text| |json]; simpl.
  - eexists 500, _. split; [done|]. split; [by right|].
    split; [done | by intros (? & [=] & _)].
  - eexists 500, _. split; [done|]. split; [by right|].
    split; [done | by intros (? & [=] & _)].
  - eexists 500, _. split; [done|]. split; [by right|].
    split; [done | by intros (? & [=] & _)].
  - destruct (field_truthy (access_token json)) eqn:Htok; simpl.
    + eexists 200, _. split; [done|]. split; [by left|].
      split; [by exists json | done].
    + eexists 500, _. split; [done|]. split; [by right|].
      split; [done|]. intros (j & [= <-] & ?). congruence.
Qed.

Lemma exchange_store cfg shop code outcome w :
  stateStore (snd (exchange cfg shop code outcome w)) = stateStore w.
Proof.
  destruct (exchange_response cfg shop code outcome w) as (? & ? & ? & -> & _ & ?).
  done.
Qed.

(** X7.  The registry after a callback is the registry before it, or
    that registry without the request's state token; the latter happens
    exactly when the state check and the signature check both passed
    after a valid shop and a code.  A callback never adds an entry and
    never touches another token. *)
Theorem callback_registry_effect `{RT : Runtime}
    (cfg : config) (q : query) (outcome : fetch_outcome) (w : world) :
  (truthy (get (lit "shop") q) && isValidShop (get (lit "shop") q) = true
   /\ truthy (get (lit "code") q) = true
   /\ fst (state_check (get (lit "state") q) w) = Ok true
   /\ fst (verifyHmac cfg q w) = Ok true
   /\ exists token,
        get (lit "state") q = Some (QStr token)
        /\ stateStore (snd (callback cfg q outcome w)) = delete token (stateStore w))
  \/ ((truthy (get (lit "shop") q) && isValidShop (get (lit "shop") q) = false
       \/ truthy (get (lit "code") q) = false
       \/ fst (state_check (get (lit "state") q) w) = Ok false
       \/ fst (verifyHmac cfg q w) <> Ok true)
      /\ stateStore (snd (callback cfg q outcome w)) = stateStore w).
Proof.
  destruct (truthy (get (lit "shop") q) && isValidShop (get (lit "shop") q)) eqn:Hshop;
    [|right; split; [by left | by rewrite callback_bad_shop]].
  destruct (truthy (get (lit "code") q)) eqn:Hcode;
    [|right; split; [by right; left | by rewrite callback_no_code]].
  destruct (state_check_bool (get (lit "state") q) w) as [[|] Hknown].
  2:{ right. split; [right; right; left; by rewrite Hknown|].
      rewrite callback_bad_state; [done|done|done|by rewrite Hknown]. }
  assert (Hk : fst (state_check (get (lit "state") q) w) = Ok true)
    by (by rewrite Hknown).
  rewrite callback_past_state by done.
  pose proof (verifyHmac_store cfg q (logged (received_line q) w)) as Hstore.
  pose proof (verifyHmac_fst_world cfg q w (logged (received_line q) w)) as Hfst.
  destruct (verifyHmac cfg q (logged (received_line q) w)) as [[[|]|e] w1];
    simpl in Hstore, Hfst.
  - left. split; [done|]. split; [done|]. split; [done|]. split; [done|].
    apply state_check_true in Hk as (token & createdAt & Hstate & _ & _).
    exists token. split; [done|].
    rewrite exchange_store, Hstate. simpl. by rewrite Hstore.
  - right. split; [|done]. right; right; right. by rewrite Hfst.
  - right. split; [|done]. right; right; right. by rewrite Hfst.
Qed.

Lemma verifyHmac_returns `{RT : Runtime} cfg q w :
  query_well_formed q -> exists b, fst (verifyHmac cfg q w) = Ok b.
Proof.
  intros Hwf. destruct (truthy (get (lit "hmac") q)) eqn:Ht.
  - destruct (buildHmacMessage_total q Hwf) as [message Hb].
    destruct (truthy_Buffer_from _ Ht) as [supplied Hs].
    rewrite (verifyHmac_compares cfg q message supplied) by done. eauto.
  - rewrite verifyHmac_falsy by done. eauto.
Qed.

(** X8.  On a query of well-formed strings the callback handler always
    answers, never throws and never redirects, and its status is 200,
    400 or 500. *)
Theorem callback_always_answers `{RT : Runtime}
    (cfg : config) (q : query) (outcome : fetch_outcome) (w : world) :
  query_well_formed q ->
  exists status body,
    fst (callback cfg q outcome w) = Ok (Send status body)
    /\ (status = 200 \/ status = 400 \/ status = 500).
Proof.
  intros Hwf.
  destruct (truthy (get (lit "shop") q) && isValidShop (get (lit "shop") q)) eqn:Hshop;
    [|rewrite callback_bad_shop by done; eexists _, _; split; [done|auto]].
  destruct (truthy (get (lit "code") q)) eqn:Hcode;
    [|rewrite callback_no_code by done; eexists _, _; split; [done|auto]].
  destruct (state_check_bool (get (lit "state") q) w) as [[|] Hknown].
  2:{ rewrite callback_bad_state; [|done|done|by rewrite Hknown].
      eexists _, _; split; [done|auto]. }
  rewrite callback_past_state; [|done|done|by rewrite Hknown].
  destruct (verifyHmac_returns cfg q (logged (received_line q) w) Hwf) as [b Hb].
  destruct (verifyHmac cfg q (logged (received_line q) w)) as [r w1].
  simpl in Hb. subst r. destruct b.
  - destruct (exchange_status cfg (get (lit "shop") q) (get (lit "code") q) outcome
                (snd (store_delete (get (lit "state") q) w1)))
      as (status & body & Hex & [->| ->] & _); eexists _, _; split; eauto.
  - eexists _, _; split; [done|auto].
Qed.

Lemma callback_always_answers_witness :
  exists status body,
    fst (callback (RT := Demo.demo_runtime) Demo.demo_config
           (Demo.demo_callback "abc-1.myshopify.com") FetchBadJson Demo.demo_world)
    = Ok (Send status body)
    /\ (status = 200 \/ status = 400 \/ status = 500).
Proof.
  apply (callback_always_answers (RT := Demo.demo_runtime)).
  unfold query_well_formed, Demo.demo_callback, Demo.demo_params. simpl app.
  repeat (apply Forall_cons; split; [split; by vm_compute|]).
  apply Forall_nil_2.
Defined.

(** X9.  The callback answers [200] exactly when every gate passed and
    the exchange returned a JSON body with a non-empty [access_token]:
    a valid shop, a code, a state token present in the registry, a
    signature that verifies. *)
Theorem callback_success_exactly `{RT : Runtime}
    (cfg : config) (q : query) (outcome : fetch_outcome) (w : world) :
  (exists body, fst (callback cfg q outcome w) = Ok (Send 200 body))
  <-> truthy (get (lit "shop") q) && isValidShop (get (lit "shop") q) = true
      /\ truthy (get (lit "code") q) = true
      /\ fst (state_check (get (lit "state") q) w) = Ok true
      /\ fst (verifyHmac cfg q w) = Ok true
      /\ exists json, outcome = FetchJson json
                      /\ field_truthy (access_token json) = true.
Proof.
  destruct (truthy (get (lit "shop") q) && isValidShop (get (lit "shop") q)) eqn:Hshop.
  2:{ rewrite callback_bad_shop by done. simpl.
      split; [by intros [? [=]] | by intros [? _]]. }
  destruct (truthy (get (lit "code") q)) eqn:Hcode.
  2:{ rewrite callback_no_code by done. simpl.
      split; [by intros [? [=]] | by intros (_ & ? & _)]. }
  destruct (state_check_bool (get (lit "state") q) w) as [[|] Hknown].
  2:{ rewrite callback_bad_state; [|done|done|by rewrite Hknown].
      rewrite Hknown. simpl.
      split; [by intros [? [=]] | by intros (_ & _ & ? & _)]. }
  rewrite callback_past_state; [|done|done|by rewrite Hknown].
  rewrite (verifyHmac_fst_world cfg q w (logged (received_line q) w)).
  rewrite Hknown. simpl.
  destruct (verifyHmac cfg q (logged (received_line q) w)) as [[[|]|e] w1]; simpl.
  - destruct (exchange_status cfg (get (lit "shop") q) (get (lit "code") q) outcome
                (snd (store_delete (get (lit "state") q) w1)))
      as (status & body & Hex & _ & Hiff).
    rewrite Hex. split.
    + intros [body' [= -> _]]. repeat (split; [done|]). by apply Hiff.
    + intros (_ & _ & _ & _ & Hjson). apply Hiff in Hjson as ->. by exists body.
  - split; [by intros [? [=]] | by intros (_ & _ & _ & ? & _)].
  - split; [by intros [? [=]] | by intros (_ & _ & _ & ? & _)].
Qed.

(** X10.  During a callback at most one token-exchange request is sent,
    and only after all four gates passed.  It goes to
    [https://<shop>/admin/oauth/access_token] for a well-shaped shop
    and carries the request's code and the client secret; a callback
    that fails a gate sends nothing. *)
Theorem callback_exchange_guarded `{RT : Runtime}
    (cfg : config) (q : query) (outcome : fetch_outcome) (w : world) :
  exists evs,
    trace (snd (callback cfg q outcome w)) = trace w ++ evs
    /\ (length (filter (fun e => Props.is_fetch e = true) evs) <= 1)%nat
    /\ forall target body,
         Fetch target body ∈ evs ->
         Spec.shop_shaped (to_string (get (lit "shop") q))
         /\ target = lit "https://" ++ to_string (get (lit "shop") q)
                     ++ lit "/admin/oauth/access_token"
         /\ truthy (get (lit "code") q) = true
         /\ (lit "code", to_string (get (lit "code") q)) ∈ body
         /\ (lit "client_secret", CLIENT_SECRET cfg) ∈ body
         /\ fst (state_check (get (lit "state") q) w) = Ok true
         /\ fst (verifyHmac cfg q w) = Ok true.
Proof.
  assert (Hnone : forall evs,
    Forall (fun e => Props.is_fetch e = false) evs ->
    filter (fun e => Props.is_fetch e = true) evs = []
    /\ forall target body, Fetch target body ∉ evs).
  { intros evs Hevs. split.
    - induction Hevs as [|e evs He _ IH]; [done|].
      rewrite filter_cons. case_decide; [congruence | done].
    - intros target body Hin. rewrite Forall_forall in Hevs.
      by specialize (Hevs _ Hin). }
  assert (Hlog : forall evs, length evs = 1%nat \/ length evs = 2%nat ->
    (forall e, e ∈ evs -> Props.is_fetch e = false) ->
    (length (filter (fun e => Props.is_fetch e = true) evs) <= 1)%nat
    /\ forall target body, Fetch target body ∈ evs -> False).
  { intros evs _ Hevs. apply Forall_forall in Hevs.
    destruct (Hnone evs Hevs) as [-> Hno]. split; [simpl; lia|].
    intros target body Hin. by apply (Hno target body). }
  destruct (truthy (get (lit "shop") q) && isValidShop (get (lit "shop") q)) eqn:Hshop.
  2:{ rewrite callback_bad_shop by done. exists [received_line q].
      split; [done|]. destruct (Hlog [received_line q]) as [Hlen Hno];
        [by left | by intros e ->%list_elem_of_singleton|].
      split; [done|]. intros target body Hin. by destruct (Hno target body). }
  destruct (truthy (get (lit "code") q)) eqn:Hcode.
  2:{ rewrite callback_no_code by done. exists [received_line q].
      split; [done|]. destruct (Hlog [received_line q]) as [Hlen Hno];
        [by left | by intros e ->%list_elem_of_singleton|].
      split; [done|]. intros target body Hin. by destruct (Hno target body). }
  destruct (state_check_bool (get (lit "state") q) w) as [[|] Hknown].
  2:{ rewrite callback_bad_state; [|done|done|by rewrite Hknown].
      exists [received_line q; bad_state_line (get (lit "state") q)].
      split; [simpl; by rewrite <- app_assoc|].
      destruct (Hlog [received_line q; bad_state_line (get (lit "state") q)])
        as [Hlen Hno]; [by right| |].
      { intros e He. apply elem_of_cons in He as [->|He]; [done|].
        by apply list_elem_of_singleton in He as ->. }
      split; [done|]. intros target body Hin. by destruct (Hno target body). }
  rewrite callback_past_state; [|done|done|by rewrite Hknown].
  pose proof (verifyHmac_fst_world cfg q w (logged (received_line q) w)) as Hfst.
  destruct (verifyHmac_trace cfg q (logged (received_line q) w)) as (vs & Hvs & Hnf).
  rewrite trace_logged in Hvs.
  destruct (verifyHmac cfg q (logged (received_line q) w)) as [[[|]|e] w1];
    simpl in Hvs, Hfst; simpl fst; simpl snd.
  - destruct (exchange_trace cfg (get (lit "shop") q) (get (lit "code") q) outcome
                (snd (store_delete (get (lit "state") q) w1)))
      as (body & xs & Hxs & Hsecret & Hcodein & Hxnf).
    assert (Hw1 : trace (snd (store_delete (get (lit "state") q) w1)) = trace w1)
      by (by destruct (get (lit "state") q) as [[s|l]|]).
    rewrite Hw1, Hvs in Hxs.
    set (target0 := lit "https://" ++ to_string (get (lit "shop") q)
                    ++ lit "/admin/oauth/access_token") in *.
    exists ([received_line q] ++ vs ++ [Fetch target0 body] ++ xs).
    split; [rewrite Hxs; by rewrite <- !app_assoc|].
    destruct (Hnone vs Hnf) as [Hfv Hnv].
    destruct (Hnone xs Hxnf) as [Hfx Hnx].
    destruct (Hnone [received_line q]) as [Hfr _]; [by repeat constructor|].
    split.
    + rewrite !filter_app, Hfr, Hfv, Hfx. simpl. lia.
    + intros target body' Hin. simpl in Hin.
      apply elem_of_cons in Hin as [[=]|Hin].
      apply elem_of_app in Hin as [Hin|Hin]; [by destruct (Hnv target body')|].
      apply elem_of_cons in Hin as [[= -> ->]|Hin]; [|by destruct (Hnx target body')].
      apply andb_true_iff in Hshop as Hboth. destruct Hboth as [_ Hvalid].
      split; [by apply isValidShop_shaped|]. split; [done|]. split; [done|].
      split; [done|]. split; [done|]. split; [by rewrite Hknown | by rewrite Hfst].
  - exists (received_line q :: vs). split; [by rewrite Hvs, <- app_assoc|].
    destruct (Hnone (received_line q :: vs)) as [Hf Hno]; [by constructor|].
    split; [rewrite Hf; simpl; lia|].
    intros target body Hin. by destruct (Hno target body).
  - exists (received_line q :: vs). split; [by rewrite Hvs, <- app_assoc|].
    destruct (Hnone (received_line q :: vs)) as [Hf Hno]; [by constructor|].
    split; [rewrite Hf; simpl; lia|].
    intros target body Hin. by destruct (Hno target body).
Qed.

(** ** A whole flow *)

(** X11.  Install followed by the matching callback is a round trip on
    the registry: if the token was not there before the install, and the
    callback carrying it passes the shop, code and signature gates, then
    after the callback the registry is exactly what it was before the
    install, and the callback went on to the exchange (it does not
    answer 400). *)
Theorem install_then_callback_restores `{RT : Runtime}
    (cfg : config) (qA qB : query) (entropy : list Z) (now : Z)
    (outcome : fetch_outcome) (w : world) :
  truthy (get (lit "shop") qA) && isValidShop (get (lit "shop") qA) = true ->
  length entropy = 16%nat ->
  stateStore w !! hex_of_bytes entropy = None ->
  truthy (get (lit "shop") qB) && isValidShop (get (lit "shop") qB) = true ->
  truthy (get (lit "code") qB) = true ->
  get (lit "state") qB = Some (QStr (hex_of_bytes entropy)) ->
  fst (verifyHmac cfg qB w) = Ok true ->
  let after := callback cfg qB outcome (snd (install cfg qA entropy now w)) in
  stateStore (snd after) = stateStore w
  /\ exists status body,
       fst after = Ok (Send status body) /\ (status = 200 \/ status = 500).
Proof.
  intros HshopA Hlen Hfresh HshopB HcodeB HstateB Hverify after. subst after.
  destruct (install_issues cfg qA entropy now w HshopA) as [Hstore _].
  set (w1 := snd (install cfg qA entropy now w)) in *.
  rewrite firstn_all2 in Hstore by lia.
  assert (Hk : fst (state_check (get (lit "state") qB) w1) = Ok true).
  { apply state_check_true. exists (hex_of_bytes entropy), now.
    split; [done|]. split.
    - destruct entropy as [|b entropy]; [done|]. apply hex_of_bytes_nonempty.
    - rewrite Hstore. apply lookup_insert_eq. }
  rewrite callback_past_state by done.
  pose proof (verifyHmac_store cfg qB (logged (received_line qB) w1)) as Hvs.
  rewrite (verifyHmac_fst_world cfg qB w (logged (received_line qB) w1)) in Hverify.
  destruct (verifyHmac cfg qB (logged (received_line qB) w1)) as [r w2].
  simpl in Hverify, Hvs. subst r. split.
  - rewrite exchange_store, HstateB. simpl. rewrite Hvs. simpl.
    rewrite Hstore, delete_insert_eq. by apply delete_id.
  - destruct (exchange_status cfg (get (lit "shop") qB) (get (lit "code") qB) outcome
                (snd (store_delete (get (lit "state") qB) w2)))
      as (status & body & Hex & Hst & _).
    by exists status, body.
Qed.

Lemma install_then_callback_restores_witness :
  let qA := [(lit "shop", QStr (lit "abc-1.myshopify.com"))] in
  let qB := Demo.demo_callback "abc-1.myshopify.com" in
  stateStore (snd (callback (RT := Demo.demo_runtime) Demo.demo_config qB
                     (FetchJson Demo.demo_json)
                     (snd (install (RT := Demo.demo_runtime) Demo.demo_config qA
                             Demo.demo_entropy 1000 Demo.empty_world))))
  = stateStore Demo.empty_world.
Proof.
  intros qA qB.
  exact (proj1 (install_then_callback_restores (RT := Demo.demo_runtime)
                  Demo.demo_config qA qB Demo.demo_entropy 1000
                  (FetchJson Demo.demo_json) Demo.empty_world
                  eq_refl eq_refl eq_refl eq_refl eq_refl eq_refl eq_refl)).
Defined.

(** ** Bytes of the UTF-8 encoding *)

Lemma lor_byte x y : 0 <= x < 256 -> 0 <= y < 256 -> 0 <= Z.lor x y < 256.
Proof.
  intros Hx Hy. split; [apply Z.lor_nonneg; lia|].
  destruct (Z.eq_dec (Z.lor x y) 0) as [->|Hnz]; [lia|].
  assert (Hpos : 0 < Z.lor x y).
  { pose proof (proj2 (Z.lor_nonneg x y) ltac:(lia)). lia. }
  change 256 with (2 ^ 8). apply Z.log2_lt_pow2; [done|].
  rewrite Z.log2_lor by lia.
  assert (Hlog : forall z, 0 <= z < 256 -> Z.log2 z < 8).
  { intros z Hz. destruct (Z.eq_dec z 0) as [->|?]; [done|].
    apply Z.log2_lt_pow2; lia. }
  pose proof (Hlog x Hx). pose proof (Hlog y Hy). lia.
Qed.

Lemma lor_lower x y : 0 <= x -> 0 <= y -> x <= Z.lor x y.
Proof.
  intros Hx Hy.
  assert (Heq : Z.lor x y = Z.ldiff y x + x).
  { rewrite (Z.add_nocarry_lor (Z.ldiff y x) x) by apply Z.land_ldiff.
    apply Z.bits_inj'. intros n Hn.
    rewrite !Z.lor_spec, Z.ldiff_spec.
    by destruct (Z.testbit x n), (Z.testbit y n). }
  pose proof (proj2 (Z.ldiff_nonneg y x) ltac:(lia)). lia.
Qed.

Lemma low_six_bits x : 0 <= Z.land x 0x3F < 64.
Proof.
  change 0x3F with (Z.ones 6). rewrite Z.land_ones by lia.
  apply Z.mod_pos_bound. lia.
Qed.

Lemma continuation_byte x : 0 <= Z.lor 0x80 (Z.land x 0x3F) < 256.
Proof. pose proof (low_six_bits x). apply lor_byte; lia. Qed.

Lemma shiftr_bound cp n k :
  0 <= n -> 0 <= cp < k * 2 ^ n -> 0 <= Z.shiftr cp n < k.
Proof.
  intros Hn Hcp. rewrite Z.shiftr_div_pow2 by done.
  assert (0 < 2 ^ n) by (apply Z.pow_pos_nonneg; lia). split.
  - apply Z.div_pos; lia.
  - apply Z.div_lt_upper_bound; lia.
Qed.

Lemma utf8_of_code_point_bytes cp :
  0 <= cp < 0x110000 -> Props.bytes (utf8_of_code_point cp).
Proof.
  intros Hcp. unfold utf8_of_code_point, Props.bytes.
  destruct (Z.ltb_spec cp 0x80); [repeat constructor; lia|].
  destruct (Z.ltb_spec cp 0x800).
  { pose proof (shiftr_bound cp 6 32 ltac:(lia) ltac:(lia)).
    repeat (apply Forall_cons; split);
      [apply lor_byte; lia | apply continuation_byte | constructor]. }
  destruct (Z.ltb_spec cp 0x10000).
  { pose proof (shiftr_bound cp 12 16 ltac:(lia) ltac:(lia)).
    repeat (apply Forall_cons; split);
      [apply lor_byte; lia | apply continuation_byte..| constructor]. }
  pose proof (shiftr_bound cp 18 5 ltac:(lia) ltac:(lia)).
  repeat (apply Forall_cons; split);
    [apply lor_byte; lia | apply continuation_byte..| constructor].
Qed.

Lemma utf8_of_code_point_head cp :
  128 <= cp -> exists b bs, utf8_of_code_point cp = b :: bs /\ 128 <= b.
Proof.
  intros Hcp. unfold utf8_of_code_point.
  destruct (Z.ltb_spec cp 0x80); [lia|].
  assert (Hs : forall n, 0 <= Z.shiftr cp n) by (intros n; apply Z.shiftr_nonneg; lia).
  destruct (Z.ltb_spec cp 0x800);
    [|destruct (Z.ltb_spec cp 0x10000)];
    eexists _, _; (split; [done|]);
    match goal with
    | |- _ <= Z.lor ?c ?y => pose proof (lor_lower c y ltac:(lia) (Hs _)); lia
    end.
Qed.

Lemma pair_code_point_range hi lo :
  is_high_surrogate hi = true -> is_low_surrogate lo = true ->
  0x10000 <= pair_code_point hi lo < 0x110000.
Proof.
  unfold is_high_surrogate, is_low_surrogate, in_range, pair_code_point.
  rewrite !andb_true_iff, !Z.leb_le. intros [? ?] [? ?].
  rewrite Z.shiftl_mul_pow2 by lia. change (2 ^ 10) with 1024. lia.
Qed.

Lemma utf8_encode_below_128 u rest :
  u < 128 -> utf8_encode (u :: rest) = u :: utf8_encode rest.
Proof.
  intros Hu. simpl. unfold is_high_surrogate, is_low_surrogate, in_range.
  destruct (Z.leb_spec 0xD800 u); [lia|]. simpl.
  destruct (Z.leb_spec 0xDC00 u); [lia|]. simpl.
  unfold utf8_of_code_point. destruct (Z.ltb_spec u 0x80); [done | lia].
Qed.

Lemma utf8_encode_head_from_128 u rest :
  128 <= u -> exists b bs, utf8_encode (u :: rest) = b :: bs /\ 128 <= b.
Proof.
  intros Hu. simpl. destruct (is_high_surrogate u) eqn:Hh.
  - destruct rest as [|v rest]; [by eexists _, _|].
    destruct (is_low_surrogate v) eqn:Hl; [|by eexists _, _].
    pose proof (pair_code_point_range u v Hh Hl).
    destruct (utf8_of_code_point_head (pair_code_point u v)) as (b & bs & -> & ?);
      [lia|].
    by eexists _, _.
  - destruct (is_low_surrogate u); [by eexists _, _|].
    destruct (utf8_of_code_point_head u Hu) as (b & bs & -> & ?).
    by eexists _, _.
Qed.

Lemma utf8_encode_ascii s : Props.ascii s -> utf8_encode s = s.
Proof.
  induction 1 as [|u s Hu _ IH]; [done|].
  rewrite utf8_encode_below_128 by lia. by rewrite IH.
Qed.

Lemma utf8_encode_ascii_inv a s : Props.ascii a -> utf8_encode s = a -> s = a.
Proof.
  intros Ha. revert a Ha. induction s as [|u s IH]; intros a Ha Henc; [done|].
  destruct (Z.lt_ge_cases u 128) as [Hu|Hu].
  - rewrite utf8_encode_below_128 in Henc by done. subst a.
    apply Forall_cons in Ha as [_ Ha]. f_equal. by apply IH.
  - destruct (utf8_encode_head_from_128 u s Hu) as (b & bs & Hb & Hge).
    rewrite Hb in Henc. subst a. apply Forall_cons in Ha as [? _]. lia.
Qed.

(** ** More on the signature comparison *)

(** X12.  When its first argument is an ASCII string, as a hexadecimal
    digest is, [safeCompare] decides string equality: it answers [true]
    for an equal second string and [false] for every other string,
    whatever characters that one contains. *)
Theorem safeCompare_ascii_equality `{RT : Runtime}
    (a b : jsstring) (w : world) :
  Props.ascii a ->
  fst (safeCompare (Some (QStr a)) (Some (QStr b)) w) = Ok (bool_decide (a = b)).
Proof.
  intros Ha.
  rewrite (safeCompare_eval _ _ (utf8_encode a) (utf8_encode b)) by done.
  simpl. f_equal. rewrite (utf8_encode_ascii a Ha).
  apply bool_decide_ext. split.
  - intros Heq. symmetry. by apply utf8_encode_ascii_inv.
  - intros <-. by rewrite utf8_encode_ascii.
Qed.

Lemma safeCompare_ascii_equality_witness :
  Props.ascii (lit "e9")
  /\ fst (safeCompare (RT := Demo.demo_runtime)
            (Some (QStr (lit "e9"))) (Some (QStr [233])) Demo.demo_world)
     = Ok (bool_decide (lit "e9" = [233])).
Proof.
  assert (Ha : Props.ascii (lit "e9")).
  { unfold Props.ascii. repeat constructor; by vm_compute. }
  split; [exact Ha|].
  exact (safeCompare_ascii_equality (RT := Demo.demo_runtime)
           (lit "e9") [233] Demo.demo_world Ha).
Defined.

(** X13.  [safeCompare] throws only when an argument is [undefined], and
    then a [TypeError]: the length test in front of
    [crypto.timingSafeEqual] keeps that call from ever raising its
    [RangeError]. *)
Theorem safeCompare_throws_only_on_undefined `{RT : Runtime}
    (a b : value) (w : world) (e : exn) :
  fst (safeCompare a b w) = Throw e ->
  e = TypeError /\ (a = None \/ b = None).
Proof.
  destruct a as [x|], b as [y|].
  - assert (Ha : exists bufA, Buffer_from (Some x) = Ok bufA)
      by (destruct x; by eexists).
    assert (Hb : exists bufB, Buffer_from (Some y) = Ok bufB)
      by (destruct y; by eexists).
    destruct Ha as [bufA Ha], Hb as [bufB Hb].
    rewrite (safeCompare_eval _ _ bufA bufB) by done. simpl.
    intros Hthrow. discriminate Hthrow.
  - destruct x; unfold safeCompare, bind, lift; simpl;
      intros Hthrow; injection Hthrow as <-; auto.
  - unfold safeCompare, bind, lift. simpl.
    intros Hthrow. injection Hthrow as <-. auto.
  - unfold safeCompare, bind, lift. simpl.
    intros Hthrow. injection Hthrow as <-. auto.
Qed.

Lemma safeCompare_throws_only_on_undefined_witness :
  fst (safeCompare (RT := Demo.demo_runtime) (Some (QStr (lit "ab"))) None
         Demo.demo_world) = Throw TypeError
  /\ TypeError = TypeError.
Proof.
  assert (H : fst (safeCompare (RT := Demo.demo_runtime) (Some (QStr (lit "ab"))) None
                     Demo.demo_world) = Throw TypeError) by reflexivity.
  split; [exact H|].
  exact (proj1 (safeCompare_throws_only_on_undefined (RT := Demo.demo_runtime)
                  _ _ _ _ H)).
Defined.

(** ** More on signature verification *)

(** X14.  Suppose the message is built and the digest the runtime
    returns is a non-empty ASCII string (a hexadecimal digest is).  Then
    a string [hmac] verifies exactly when it equals the digest,
    character for character; and a repeated [hmac] (an array) verifies
    exactly when the bytes [Buffer.from] makes of its elements are the
    digest's bytes. *)
Theorem verifyHmac_accepts_exactly `{RT : Runtime}
    (cfg : config) (q : query) (message : jsstring) (w : world) :
  buildHmacMessage q = Ok message ->
  Props.ascii (hmac_sha256_hex (CLIENT_SECRET cfg) message) ->
  hmac_sha256_hex (CLIENT_SECRET cfg) message <> [] ->
  (forall h, get (lit "hmac") q = Some (QStr h) ->
     (fst (verifyHmac cfg q w) = Ok true
      <-> h = hmac_sha256_hex (CLIENT_SECRET cfg) message))
  /\ (forall elems, get (lit "hmac") q = Some (QArr elems) ->
        (fst (verifyHmac cfg q w) = Ok true
         <-> map to_uint8 elems = hmac_sha256_hex (CLIENT_SECRET cfg) message)).
Proof.
  intros Hb Hascii Hne. split.
  - intros h Hh. destruct (decide (h = [])) as [->|Hnil].
    + rewrite verifyHmac_falsy by (by rewrite Hh). simpl.
      split; [done | congruence].
    + rewrite (verifyHmac_compares cfg q message (utf8_encode h));
        [|rewrite Hh; by destruct h|done|by rewrite Hh].
      rewrite (utf8_encode_ascii _ Hascii). split.
      * intros Hd. injection Hd as Hd. apply bool_decide_eq_true in Hd.
        symmetry in Hd. by apply utf8_encode_ascii_inv in Hd.
      * intros Heq. f_equal. apply bool_decide_eq_true.
        rewrite Heq. by rewrite utf8_encode_ascii.
  - intros elems Hh.
    rewrite (verifyHmac_compares cfg q message (map to_uint8 elems));
      [|by rewrite Hh|done|by rewrite Hh].
    rewrite (utf8_encode_ascii _ Hascii). split.
    + intros [= Hd]. by apply bool_decide_eq_true in Hd.
    + intros Heq. f_equal. by apply bool_decide_eq_true.
Qed.

Lemma verifyHmac_accepts_exactly_witness :
  let q := Demo.demo_callback "abc-1.myshopify.com" in
  fst (verifyHmac (RT := Demo.demo_runtime) Demo.demo_config q Demo.demo_world)
  = Ok true.
Proof.
  intros q.
  assert (Hb : exists message, buildHmacMessage q = Ok message).
  { eexists. by vm_compute. }
  destruct Hb as [message Hb].
  assert (Hm : message = lit "code=c0de&shop=abc-1.myshopify.com&state=00112233445566778899aabbccddeeff").
  { assert (Hc : buildHmacMessage q = Ok (lit "code=c0de&shop=abc-1.myshopify.com&state=00112233445566778899aabbccddeeff"))
      by (by vm_compute).
    congruence. }
  subst message.
  eapply (proj1 (verifyHmac_accepts_exactly (RT := Demo.demo_runtime)
                   Demo.demo_config q _ Demo.demo_world Hb _ _)).
  - reflexivity.
  - by vm_compute.
  Unshelve.
  + unfold Props.ascii. apply Forall_forall. intros u Hu.
    revert u Hu. apply Forall_forall.
    apply (Forall_impl (fun u => (0 <=? u) && (u <? 128) = true)).
    * apply (bool_decide_unpack _). by vm_compute.
    * intros u [?%Z.leb_le ?%Z.ltb_lt]%andb_true_iff. lia.
  + by vm_compute.
Defined.

Lemma get_flatten_arrays k q :
  get k (Props.flatten_arrays q) = (fun v => QStr (Spec.flatten v)) <$> get k q.
Proof.
  induction q as [|[k' v] q IH]; [done|]. simpl. by case_decide.
Qed.

Lemma rest_of_flatten_arrays q :
  rest_of (Props.flatten_arrays q) = Props.flatten_arrays (rest_of q).
Proof.
  unfold rest_of, Props.flatten_arrays, query.
  induction q as [|[k v] q IH]; [done|]. simpl map.
  rewrite !filter_cons. simpl. case_decide; simpl; by rewrite IH.
Qed.

(** X15.  The signed message does not tell an array from the string its
    elements join to: replacing every array value of a query by the
    comma-joined string leaves the message unchanged, so
    [a=x&a=y] and [a=x%2Cy] are signed alike. *)
Theorem buildHmacMessage_flattens (q : query) :
  buildHmacMessage (Props.flatten_arrays q) = buildHmacMessage q.
Proof.
  unfold buildHmacMessage. rewrite rest_of_flatten_arrays.
  assert (Hkeys : object_keys (Props.flatten_arrays (rest_of q))
                  = object_keys (rest_of q)).
  { unfold object_keys, Props.flatten_arrays. rewrite map_map. done. }
  rewrite Hkeys.
  rewrite (map_res_ext (encode_pair (Props.flatten_arrays (rest_of q)))
             (encode_pair (rest_of q))); [done|].
  intros k _. unfold encode_pair. rewrite get_flatten_arrays.
  by destruct (get k (rest_of q)) as [[s|l]|].
Qed.

(** ** The alphabet of the signed message *)

Lemma hex_digit_upper_unreserved n :
  0 <= n < 16 -> uri_unreserved (hex_digit_upper n) = true.
Proof.
  intros Hn. unfold uri_unreserved, hex_digit_upper, in_range.
  destruct (Z.ltb_spec n 10).
  - assert (H1 : (48 <=? 48 + n) && (48 + n <=? 57) = true)
      by (apply andb_true_iff; rewrite !Z.leb_le; lia).
    rewrite H1. by rewrite !orb_true_r.
  - assert (H1 : (65 <=? 55 + n) && (55 + n <=? 90) = true)
      by (apply andb_true_iff; rewrite !Z.leb_le; lia).
    by rewrite H1.
Qed.

Lemma percent_byte_safe b : 0 <= b < 256 -> Forall Props.uri_safe (percent_byte b).
Proof.
  intros Hb. destruct (nibbles_of_byte b Hb) as [Hhi Hlo]. unfold percent_byte.
  apply Forall_cons. split; [by right|].
  apply Forall_cons. split; [left; by apply hex_digit_upper_unreserved|].
  apply Forall_cons. split; [left; by apply hex_digit_upper_unreserved|].
  constructor.
Qed.

Lemma escape_safe cp :
  0 <= cp < 0x110000 ->
  Forall Props.uri_safe (concat (map percent_byte (utf8_of_code_point cp))).
Proof.
  intros Hcp. apply Forall_concat, Forall_fmap.
  eapply Forall_impl; [by apply utf8_of_code_point_bytes|].
  intros b Hb. by apply percent_byte_safe.
Qed.

Lemma encodeURIComponent_safe_upto n s t :
  (length s <= n)%nat -> Props.code_units s ->
  encodeURIComponent s = Ok t -> Forall Props.uri_safe t.
Proof.
  revert s t. induction n as [|n IH]; intros [|u s] t Hlen Hcu Henc;
    simpl in *; try lia; try (injection Henc as <-; constructor).
  apply Forall_cons in Hcu as [Hu Hcu].
  destruct (uri_unreserved u) eqn:Hun.
  - destruct (encodeURIComponent s) as [t'|] eqn:Hs; [|done].
    injection Henc as <-. apply Forall_cons. split; [by left|].
    apply (IH s); [lia|done|done].
  - destruct (is_low_surrogate u); [done|].
    destruct (is_high_surrogate u) eqn:Hh.
    + destruct s as [|v s]; [done|].
      destruct (is_low_surrogate v) eqn:Hl; [|done].
      apply Forall_cons in Hcu as [_ Hcu].
      destruct (encodeURIComponent s) as [t'|] eqn:Hs; [|done].
      injection Henc as <-. apply Forall_app. split.
      * apply escape_safe. pose proof (pair_code_point_range u v Hh Hl). lia.
      * apply (IH s); [simpl in Hlen; lia|done|done].
    + destruct (encodeURIComponent s) as [t'|] eqn:Hs; [|done].
      injection Henc as <-. apply Forall_app. split.
      * apply escape_safe. lia.
      * apply (IH s); [lia|done|done].
Qed.

Lemma encodeURIComponent_safe s t :
  Props.code_units s -> encodeURIComponent s = Ok t -> Forall Props.uri_safe t.
Proof. by apply (encodeURIComponent_safe_upto (length s)). Qed.

Lemma occurrences_app c a b :
  Props.occurrences c (a ++ b) = (Props.occurrences c a + Props.occurrences c b)%nat.
Proof. unfold Props.occurrences, jsstring. by rewrite filter_app, length_app. Qed.

Lemma occurrences_safe c s :
  Forall Props.uri_safe s -> c = 38 \/ c = 61 -> Props.occurrences c s = 0%nat.
Proof.
  intros Hs Hc. unfold Props.occurrences, jsstring.
  induction Hs as [|u s Hu _ IH]; [done|].
  rewrite filter_cons. case_decide as Heq; [|done]. subst u.
  destruct Hu as [Hu|Hu]; destruct Hc as [-> | ->]; by vm_compute in Hu.
Qed.

Lemma join_code_units sep l :
  Props.code_units sep -> Forall Props.code_units l -> Props.code_units (join sep l).
Proof.
  intros Hsep. induction 1 as [|x l Hx Hl IH]; [constructor|]. simpl.
  destruct l as [|y l]; [done|].
  apply Forall_app. split; [done|]. by apply Forall_app.
Qed.

Lemma get_code_units q k v :
  Props.query_code_units q -> get k q = Some v -> Props.value_code_units v.
Proof.
  induction 1 as [|[k0 v0] q [_ Hv0] _ IH]; simpl; [done|].
  case_decide; [by intros [= <-] | done].
Qed.

Lemma map_res_Forall2 {A B} (f : A -> res B) l ys :
  map_res f l = Ok ys -> Forall2 (fun x y => f x = Ok y) l ys.
Proof.
  revert ys. induction l as [|x l IH]; intros ys; simpl.
  - intros [= <-]. constructor.
  - destruct (f x) as [y|] eqn:Hx; [|done].
    destruct (map_res f l) as [ys'|]; [|done].
    intros [= <-]. constructor; [done|]. by apply IH.
Qed.

Lemma signed_value_code_units q k :
  Props.query_code_units q ->
  Props.code_units
    (to_string (if is_array (get k q)
                then Some (QStr (array_join (lit ",") (get k q)))
                else get k q)).
Proof.
  intros Hq. destruct (get k q) as [[s|l]|] eqn:Hget; simpl.
  - by apply (get_code_units q k (QStr s)).
  - apply join_code_units; [by repeat constructor|].
    by apply (get_code_units q k (QArr l)).
  - unfold Props.code_units.
    apply (Forall_impl (fun u => (0 <=? u) && (u <? 65536) = true)).
    + apply (bool_decide_unpack _). by vm_compute.
    + intros u [?%Z.leb_le ?%Z.ltb_lt]%andb_true_iff. lia.
Qed.

Lemma encode_pair_shape q k part :
  Props.query_code_units q -> Props.code_units k ->
  encode_pair q k = Ok part ->
  Props.occurrences 61 part = 1%nat /\ Props.occurrences 38 part = 0%nat.
Proof.
  intros Hq Hk. unfold encode_pair. cbv zeta.
  pose proof (signed_value_code_units q k Hq) as Hv.
  destruct (encodeURIComponent k) as [ek|] eqn:Hek; [|done].
  destruct (encodeURIComponent (to_string _)) as [ev|] eqn:Hev; [|done].
  intros Henc. injection Henc as Hpart. subst part.
  assert (Hsk : Forall Props.uri_safe ek) by (by apply (encodeURIComponent_safe k)).
  assert (Hsv : Forall Props.uri_safe ev)
    by (by apply (encodeURIComponent_safe _ _ Hv Hev)).
  change (Z.of_nat (nat_of_ascii "=") :: ev) with ([61] ++ ev).
  split; rewrite !occurrences_app.
  - rewrite (occurrences_safe 61 ek), (occurrences_safe 61 ev) by auto.
    by vm_compute.
  - rewrite (occurrences_safe 38 ek), (occurrences_safe 38 ev) by auto.
    by vm_compute.
Qed.

Lemma rest_of_code_units q : Props.query_code_units q -> Props.query_code_units (rest_of q).
Proof.
  unfold Props.query_code_units, rest_of. rewrite !Forall_forall.
  intros Hq x [_ Hx]%list_elem_of_filter. by apply Hq.
Qed.

Lemma join_occurrences parts :
  Forall (fun p => Props.occurrences 61 p = 1%nat /\ Props.occurrences 38 p = 0%nat) parts ->
  Props.occurrences 61 (join (lit "&") parts) = length parts
  /\ Props.occurrences 38 (join (lit "&") parts) = pred (length parts).
Proof.
  induction 1 as [|p parts [Hp1 Hp2] Hparts [IH1 IH2]]; [done|].
  destruct parts as [|p' parts]; [simpl; by rewrite Hp1, Hp2|].
  change (join (lit "&") (p :: p' :: parts))
    with (p ++ [38] ++ join (lit "&") (p' :: parts)).
  rewrite !occurrences_app, Hp1, Hp2, IH1, IH2. simpl length.
  split; [by vm_compute|]. change (Props.occurrences 38 [38]) with 1%nat. lia.
Qed.

(** X16.  Whatever characters the keys and values contain, the signed
    message has exactly one [=] per signed parameter and exactly one
    [&] between two of them: percent-encoding lets neither delimiter
    through, so no parameter can pass for two. *)
Theorem signed_message_delimiters (q : query) (message : jsstring) :
  Props.query_code_units q ->
  buildHmacMessage q = Ok message ->
  Props.occurrences 61 message = length (rest_of q)
  /\ Props.occurrences 38 message = pred (length (rest_of q)).
Proof.
  intros Hq%rest_of_code_units. unfold buildHmacMessage.
  destruct (map_res _ _) as [parts|] eqn:Hparts; [|done].
  intros [= <-]. apply map_res_Forall2 in Hparts.
  assert (Hlen : length parts = length (rest_of q)).
  { rewrite <- (Forall2_length _ _ _ Hparts). unfold sort.
    rewrite merge_sort_Permutation. unfold object_keys. by rewrite length_map. }
  rewrite <- Hlen. apply join_occurrences.
  apply Forall_forall. intros part Hpart.
  destruct (proj1 (list_elem_of_lookup _ _) Hpart) as [i Hi].
  destruct (Forall2_lookup_r _ _ _ _ _ Hparts Hi) as (k & Hk & Henc).
  apply (encode_pair_shape (rest_of q) k); [done| |done].
  apply list_elem_of_lookup_2 in Hk. unfold sort in Hk.
  rewrite merge_sort_Permutation in Hk.
  apply list_elem_of_fmap in Hk as ([k' v] & -> & Hin).
  unfold Props.query_code_units in Hq. rewrite Forall_forall in Hq.
  by destruct (Hq _ Hin).
Qed.

Lemma signed_message_delimiters_witness :
  let q := [(lit "b", QStr (lit "1&c=2")); (lit "a=", QArr [lit "x"; lit "y"]);
            (lit "hmac", QStr (lit "00"))] in
  buildHmacMessage q = Ok (lit "a%3D=x%2Cy&b=1%26c%3D2")
  /\ Props.occurrences 61 (lit "a%3D=x%2Cy&b=1%26c%3D2") = length (rest_of q)
  /\ Props.occurrences 38 (lit "a%3D=x%2Cy&b=1%26c%3D2") = pred (length (rest_of q)).
Proof.
  intros q.
  assert (Hq : Props.query_code_units q).
  { unfold Props.query_code_units, q.
    repeat (apply Forall_cons; split;
            [split; simpl; repeat (apply Forall_cons; split);
             try apply Forall_nil_2; by vm_compute|]).
    apply Forall_nil_2. }
  assert (Hb : buildHmacMessage q = Ok (lit "a%3D=x%2Cy&b=1%26c%3D2"))
    by (by vm_compute).
  split; [exact Hb|].
  exact (signed_message_delimiters q _ Hq Hb).
Defined.

(** ** The empty message *)

Lemma encode_pair_has_equals rest k part : encode_pair rest k = Ok part -> 61 ∈ part.
Proof.
  unfold encode_pair. cbv zeta.
  destruct (encodeURIComponent k) as [ek|]; [|done].
  destruct (encodeURIComponent (to_string _)) as [ev|]; [|done].
  intros Henc. injection Henc as <-.
  apply elem_of_app. right. left.
Qed.

Lemma join_head_elem sep p parts u : u ∈ p -> u ∈ join sep (p :: parts).
Proof.
  intros Hu. destruct parts as [|p' parts]; [done|].
  simpl. apply elem_of_app. by left.
Qed.

Lemma rest_of_nil q :
  rest_of q = [] <-> Forall (fun kv => kv.1 = lit "hmac" \/ kv.1 = lit "signature") q.
Proof.
  unfold rest_of, query. induction q as [|[k v] q IH].
  - split; [constructor | done].
  - rewrite filter_cons, Forall_cons. simpl. case_decide as Hk.
    + split; [done|]. intros [[?|?] _]; tauto.
    + rewrite IH. split; [|tauto]. intros Hq. split; [|done].
      destruct (decide (k = lit "hmac")); [by left|].
      destruct (decide (k = lit "signature")); [by right|]. tauto.
Qed.

(** X17.  The signed message is empty exactly when the query holds
    nothing but [hmac] and [signature]; in particular an empty query
    and a query of the signature alone are signed as the empty
    string. *)
Theorem buildHmacMessage_empty (q : query) :
  buildHmacMessage q = Ok []
  <-> Forall (fun kv => kv.1 = lit "hmac" \/ kv.1 = lit "signature") q.
Proof.
  rewrite <- rest_of_nil. unfold buildHmacMessage. split.
  - destruct (map_res _ _) as [parts|] eqn:Hparts; [|done].
    intros [= Hjoin]. apply map_res_Forall2 in Hparts.
    destruct parts as [|p parts].
    + apply Forall2_nil_inv_r in Hparts.
      apply (f_equal length) in Hparts. unfold sort in Hparts.
      rewrite merge_sort_Permutation in Hparts. unfold object_keys in Hparts.
      rewrite length_map in Hparts. by destruct (rest_of q).
    + apply Forall2_cons_inv_r in Hparts as (k & ks & Henc & _ & _).
      apply encode_pair_has_equals in Henc.
      apply (join_head_elem (lit "&") p parts) in Henc.
      rewrite Hjoin in Henc. by apply elem_of_nil in Henc.
  - intros ->. done.
Qed.

(** ** Start-up *)

Section StartupFacts.
Import Startup.

Lemma drop_while_head p s u : head (drop_while p s) = Some u -> p u = false.
Proof.
  induction s as [|x s IH]; simpl; [done|].
  destruct (p x) eqn:Hx; [done|]. simpl. by intros [= <-].
Qed.

Lemma drop_while_split p s :
  exists pre, s = pre ++ drop_while p s /\ Forall (fun u => p u = true) pre.
Proof.
  induction s as [|x s (pre & Hs & Hpre)]; simpl; [by exists []|].
  destruct (p x) eqn:Hx.
  - exists (x :: pre). split; [by rewrite Hs at 1 | by constructor].
  - by exists [].
Qed.




Lemma trim_last s u : last (trim s) = Some u -> is_whitespace u = false.
Proof. unfold trim. rewrite last_reverse. apply drop_while_head. Qed.

Lemma trim_head s u : head (trim s) = Some u -> is_whitespace u = false.
Proof.
  unfold trim.
  destruct (drop_while_split is_whitespace (reverse (drop_while is_whitespace s)))
    as (pre & Hsplit & _).
  set (d := drop_while is_whitespace (reverse (drop_while is_whitespace s))) in *.
  apply (f_equal reverse) in Hsplit.
  rewrite reverse_involutive, reverse_app in Hsplit.
  intros Hhead.
  apply (drop_while_head is_whitespace s). rewrite Hsplit.
  destruct (reverse d) as [|x r]; [done|]. done.
Qed.



(** X18.  When start-up succeeds, the configuration the handlers run
    with has a non-empty client id, scopes and redirect URI taken from
    the environment as they are, and a client secret that is the
    environment's value without surrounding white space, non-empty, and
    different from the client id. *)
Theorem startup_configuration (e : env) (cfg : config) (on : port) :
  startup e = Listening cfg on ->
  e !! lit "SHOPIFY_CLIENT_ID" = Some (CLIENT_ID cfg)
  /\ e !! lit "SHOPIFY_SCOPES" = Some (SCOPES cfg)
  /\ e !! lit "SHOPIFY_REDIRECT_URI" = Some (REDIRECT_URI cfg)
  /\ trim <$> e !! lit "SHOPIFY_CLIENT_SECRET" = Some (CLIENT_SECRET cfg)
  /\ CLIENT_ID cfg <> [] /\ SCOPES cfg <> [] /\ REDIRECT_URI cfg <> []
  /\ CLIENT_SECRET cfg <> []
  /\ CLIENT_SECRET cfg <> CLIENT_ID cfg
  /\ (forall u, head (CLIENT_SECRET cfg) = Some u -> is_whitespace u = false)
  /\ (forall u, last (CLIENT_SECRET cfg) = Some u -> is_whitespace u = false).
Proof.
  unfold startup.
  destruct (e !! lit "SHOPIFY_CLIENT_ID") as [[|i id]|]; simpl; try done.
  destruct (e !! lit "SHOPIFY_CLIENT_SECRET") as [secret|]; simpl; try done.
  destruct (trim secret) as [|c sec] eqn:Htrim; simpl; try done.
  destruct (e !! lit "SHOPIFY_SCOPES") as [[|s scopes]|]; simpl; try done.
  destruct (e !! lit "SHOPIFY_REDIRECT_URI") as [[|r uri]|]; simpl; try done.
  case_bool_decide as Heq; [done|].
  intros [= <- _]. simpl. repeat (split; [done|]).
  split; [congruence|]. split; intros u Hu.
  - apply (trim_head secret). by rewrite Htrim.
  - apply (trim_last secret). by rewrite Htrim.
Qed.

Lemma startup_configuration_witness :
  let e : env :=
    {[ lit "SHOPIFY_CLIENT_ID" := lit "id";
       lit "SHOPIFY_CLIENT_SECRET" := lit " secret " ++ [10];
       lit "SHOPIFY_SCOPES" := lit "read_products";
       lit "SHOPIFY_REDIRECT_URI" := lit "https://example.test/auth/callback" ]} in
  exists cfg on, startup e = Listening cfg on /\ CLIENT_SECRET cfg = lit "secret".
Proof.
  intros e.
  assert (Hs : exists cfg on, startup e = Listening cfg on).
  { eexists _, _. by vm_compute. }
  destruct Hs as (cfg & on & Hs). exists cfg, on. split; [exact Hs|].
  destruct (startup_configuration e cfg on Hs) as (_ & _ & _ & Hsecret & _).
  assert (Ht : trim <$> e !! lit "SHOPIFY_CLIENT_SECRET" = Some (lit "secret"))
    by (by vm_compute).
  congruence.
Defined.



End StartupFacts.
